(** * The delay-and-sum matrix of PyMUST ([src/pymust/dasmtx.py])

    A shallow embedding of the function [dasmtx]: its body from the end of
    the argument checks (line 410 of the Python file) to its [return], and
    the checks themselves (lines 224-406).

    Conventions of the embedding.
    - A float64 is a real number of [R]; the sentinel NaN that marks an
      inactive element of [delaysTX] is [None] in an [option R].
    - A Python [int] is a [Z]; a length or a position in an array is a [nat].
    - A one-dimensional array is a [list]; a two-dimensional array is a list
      of rows (row-major, as numpy stores it).
    - A raised exception is the left injection of [result]; statements are
      sequenced with the bind of that monad. *)

From Stdlib Require Import String Ascii.
From Stdlib Require Import Reals Lra Lia ZArith List Bool Sorted.
Import ListNotations.

Local Open Scope R_scope.

(** ** Exceptions and the error monad *)

Inductive exn : Type :=
| AssertionError (msg : string)
| ValueError (msg : string)
| TypeError (msg : string)
| AttributeError (msg : string)
| UnboundLocalError (var : string)
| IndexError (msg : string).

Definition result (A : Type) : Type := (exn + A)%type.

Definition ret {A : Type} (a : A) : result A := inr a.

Definition raise {A : Type} (e : exn) : result A := inl e.

Definition bind {A B : Type} (m : result A) (k : A -> result B) : result B :=
  match m with
  | inl e => inl e
  | inr a => k a
  end.

Notation "x <- m ;; k" := (bind m (fun x => k))
  (at level 61, m at next level, right associativity).
Notation "m ;;; k" := (bind m (fun _ => k))
  (at level 61, right associativity).

(** [assert cond, msg] *)
Definition py_assert (cond : bool) (msg : string) : result unit :=
  if cond then ret tt else raise (AssertionError msg).

Definition raises {A : Type} (m : result A) : Prop := exists e, m = inl e.

Definition returns {A : Type} (m : result A) : Prop := exists a, m = inr a.

(** ** The numpy operations the function uses *)

Module np.

Definition leb (a b : R) : bool := if Rle_dec a b then true else false.

Definition ltb (a b : R) : bool := if Rlt_dec a b then true else false.

(** [np.floor(v).astype(int)] *)
Definition floor (v : R) : Z := Int_part v.

(** [np.round(v).astype(int)]: to the nearest integer, a tie to the even
    one. *)
Definition round (v : R) : Z :=
  let f := Int_part v in
  let d := v - IZR f in
  if Rlt_dec d (1 / 2) then f
  else if Rlt_dec (1 / 2) d then (f + 1)%Z
  else if Z.even f then f else (f + 1)%Z.

(** [np.sinc(t)], the normalised sinc, over the reals: numpy evaluates
    [sin(pi*t)/(pi*t)] with a rounded pi, so that its value is close to
    this one and, at a non-zero integer, small but not 0. *)
Definition sinc (t : R) : R :=
  if Req_dec_T t 0 then 1 else sin (PI * t) / (PI * t).

(** [np.diff] of a boolean array: numpy takes the difference of booleans
    as their exclusive or. *)
Fixpoint diff (l : list bool) : list bool :=
  match l with
  | a :: (b :: _) as tl => xorb b a :: diff tl
  | _ => []
  end.

(** [np.sum] of a boolean array, also [np.count_nonzero]. *)
Definition count_nonzero (l : list bool) : nat :=
  length (filter (fun b => b) l).

(** [np.min] of a one-dimensional float array; numpy raises on an empty
    one. *)
Definition min (l : list R) : result R :=
  match l with
  | [] => raise (ValueError "zero-size array to reduction operation minimum")
  | v :: tl => ret (fold_left Rmin tl v)
  end.

(** [np.tile(a, n)] for a one-dimensional [a]. *)
Definition tile {A : Type} (a : list A) (n : nat) : list A :=
  concat (repeat a n).

(** The transpose [M.T] of an array with [ncols] columns. *)
Definition transpose {A : Type} (d : A) (ncols : nat) (M : list (list A))
  : list (list A) :=
  map (fun e => map (fun row => nth e row d) M) (seq 0 ncols).

(** The positions of the true entries of one row. *)
Definition where_row (row : list bool) : list nat :=
  filter (fun e => nth e row false) (seq 0 (length row)).

(** [np.where(M)] for a two-dimensional boolean array: the positions
    (first index, second index) of its true entries, in row-major
    order. *)
Definition where_ (M : list (list bool)) : list (nat * nat) :=
  concat (map (fun '(r, row) => map (fun e => (r, e)) (where_row row))
              (combine (seq 0 (length M)) M)).

(** [np.ravel_multi_index([i, j], shape)], one position. *)
Definition ravel_multi_index (i j : nat) (shape : nat * nat) : nat :=
  (i * snd shape + j)%nat.

(** [np.take(M, k)]: the entry at position [k] of the flattened array.
    numpy raises for a position beyond the end; the positions the
    function passes come from [where] and are inside. *)
Definition take (M : list (list R)) (k : nat) : R :=
  nth k (concat M) 0.

(** Element-wise application to two arrays of one shape. *)
Definition map2 {A B C : Type} (f : A -> B -> C) (a : list A) (b : list B)
  : list C :=
  map (fun '(u, v) => f u v) (combine a b).

(** A binary operation on two one-dimensional arrays under numpy's
    broadcasting: an array of length 1 is stretched to the other's
    length, equal lengths go element by element, anything else raises. *)
Definition broadcast (f : R -> R -> R) (a b : list R) : result (list R) :=
  match a, b with
  | [u], _ => ret (map (f u) b)
  | _, [v] => ret (map (fun u => f u v) a)
  | _, _ =>
      if Nat.eqb (length a) (length b) then ret (map2 f a b)
      else raise (ValueError "operands could not be broadcast together")
  end.

End np.

(** ** The parameter structure, after the argument checks *)

Inductive method : Type :=
| nearest | linear | quadratic | lanczos3 | fivepoints | lanczos5.

(** The fields of [param] that the function reads once its checks are over.
    [fnumber = None] is the request to determine the f-number
    automatically; [radius = None] is [np.inf] (a linear array);
    [TransposeDASMatrix = None] is the absence of that field. *)
Record Param : Type := mkParam {
  fs : R;
  c : R;
  t0 : R;
  fnumber : option R;
  fc : R;
  bandwidth : R;
  width : R;
  radius : option R;
  RXangle : R;
  passive : bool;
  TransposeDASMatrix : option bool
}.

(** ** Lines 427-429: the transmit sub-aperture *)

(** [idx = np.logical_not(np.isnan(delaysTX))] *)
Definition active (delaysTX : list (option R)) : list bool :=
  map (fun d => match d with Some _ => true | None => false end) delaysTX.

(** [np.sum(np.abs(np.diff(idx)))]; the absolute value of a boolean is
    itself. *)
Definition transitions (idx : list bool) : nat :=
  np.count_nonzero (np.diff idx).

Definition check_subaperture (delaysTX : list (option R)) : result unit :=
  py_assert (Nat.ltb (transitions (active delaysTX)) 3)
            "Several simultaneous sub-apertures are not allowed.".

(** The active elements form at most one contiguous run: [n0] inactive
    elements, then [n1] active ones, then [n2] inactive ones. *)
Definition one_run (idx : list bool) : Prop :=
  exists n0 n1 n2 : nat,
    idx = repeat false n0 ++ repeat true n1 ++ repeat false n2.

(** The same with at least one active element: a single run. *)
Definition single_run (idx : list bool) : Prop :=
  exists n0 n1 n2 : nat,
    idx = repeat false n0 ++ repeat true (S n1) ++ repeat false n2.

(** ** Lines 598-613: the orientation of the matrix *)

(** What the function hands to [scipy.sparse.coo_matrix]: the shape and the
    three coordinate arrays. *)
Inductive values : Type :=
| RFvalues (s : list R)
| IQvalues (s : list (R * R)).

Record coo_matrix : Type := mkCoo {
  shape : nat * nat;
  row : list Z;
  col : list Z;
  data : values
}.

(** Returns the matrix and the field [TransposeDASMatrix] as the function
    leaves it in [param]. *)
Definition orient (flag : option bool) (npoints nl nc : nat)
    (i j : list Z) (s : values) : coo_matrix * option bool :=
  match flag with
  | Some _ =>
      if Nat.ltb (nl * nc) npoints
      then (mkCoo (npoints, (nl * nc)%nat) i j s, Some false)
      else (mkCoo ((nl * nc)%nat, npoints) j i s, Some true)
  | None => (mkCoo (npoints, (nl * nc)%nat) i j s, None)
  end.

(** The constructor [scipy.sparse.coo_matrix((s, (i, j)), shape)] checks
    the indices of the entries it is given: a row index outside
    [0, shape[0]) or a column index outside [0, shape[1]) raises
    [ValueError]. *)
Definition index_ok (n : nat) (k : Z) : bool :=
  andb (Z.leb 0 k) (Z.ltb k (Z.of_nat n)).

Definition coo_check (M : coo_matrix) : result coo_matrix :=
  if andb (forallb (index_ok (fst (shape M))) (row M))
          (forallb (index_ok (snd (shape M))) (col M))
  then ret M
  else raise (ValueError "index negative or beyond the matrix dimensions").

(** The matrix is stored transposed: rows are samples, columns are image
    points. *)
Definition transposed (npoints nl nc : nat) (i j : list Z) (M : coo_matrix)
  : Prop :=
  shape M = ((nl * nc)%nat, npoints) /\ row M = j /\ col M = i.

Definition kept (npoints nl nc : nat) (i j : list Z) (M : coo_matrix)
  : Prop :=
  shape M = (npoints, (nl * nc)%nat) /\ row M = i /\ col M = j.

(** ** Lines 431-447: the virtual transmit front *)

Inductive interp_kind : Type := cubic | spline.

(** [np.linspace(a, b, num)] *)
Definition linspace (a b : R) (num : nat) : list R :=
  map (fun k => a + INR k * ((b - a) / (INR num - 1))) (seq 0 num).

(** Boolean-mask indexing of a float array, [v[idx]]. *)
Definition select {A : Type} (idx : list bool) (v : list A) : list A :=
  map snd (filter fst (combine idx v)).

(** [delaysTX[idx]]: the delays that are not NaN. *)
Definition numbers (delaysTX : list (option R)) : list R :=
  flat_map (fun d => match d with Some v => [v] | None => [] end) delaysTX.

Record front : Type := mkFront {
  xTi : list R;
  zTi : list R;
  delaysTXi : list R
}.

Section Collaborators.

(** [utils.interp1(y, xi, kind)] is defined outside the source file: its
    result is left abstract. *)
Variable interp1 : list R -> list R -> interp_kind -> list R.

(** The search that [scipy.optimize.fminbound] runs on an objective, two
    bounds and a tolerance; only its interface matters here. *)
Variable bounded_search : (R -> R) -> R -> R -> R -> R.

Definition TXfront (p : Param) (xe ze : list R) (delaysTX : list (option R))
  : front :=
  let idx := active delaysTX in
  let isLINEAR := match radius p with None => true | Some _ => false end in
  let nTX := np.count_nonzero idx in
  if Nat.ltb 1 nTX then
    let idxi := linspace 0 (INR nTX - 1) (4 * nTX) in
    let xTi := interp1 (select idx xe) idxi cubic in
    let zTi := if isLINEAR then map (fun _ => 0) xTi
               else interp1 (select idx ze) idxi spline in
    mkFront xTi zTi (interp1 (numbers delaysTX) idxi spline)
  else
    let zTi := if isLINEAR then map (fun _ => 0) idx
               else select idx ze in
    mkFront (select idx xe) zTi (numbers delaysTX).

(** ** Lines 453-463: the f-number *)

(** The parameters of [scipy.optimize.fminbound(func, x1, x2, args=(),
    xtol=1e-05, maxfun=500, full_output=0, disp=1)]. *)
Definition fminbound_parameters : list string :=
  ["func"; "x1"; "x2"; "args"; "xtol"; "maxfun"; "full_output"; "disp"]%string.

Definition lookup (name : string) (kwargs : list (string * R)) : option R :=
  option_map snd (find (fun kw => String.eqb (fst kw) name) kwargs).

(** A call [fminbound(func, x1, x2, **kwargs)]: Python raises [TypeError]
    on a keyword that is no parameter of the callee; without
    [full_output] the callee returns the abscissa, a float. *)
Definition fminbound (accepted : list string) (func : R -> R) (x1 x2 : R)
    (kwargs : list (string * R)) : result R :=
  match find (fun kw => negb (existsb (String.eqb (fst kw)) accepted))
             kwargs with
  | Some _ =>
      raise (TypeError "fminbound() got an unexpected keyword argument")
  | None =>
      let xtol := match lookup "xtol" kwargs with
                  | Some t => t
                  | None => 1 / 100000
                  end in
      ret (bounded_search func x1 x2 xtol)
  end.

(** Attribute access on a float: [real] and [imag] exist, [xopt] does
    not. *)
Definition float_getattr (v : R) (name : string) : result R :=
  if String.eqb name "real" then ret v
  else if String.eqb name "imag" then ret 0
  else raise (AttributeError "'float' object has no attribute").

(** The objective of line 457. *)
Definition directivity (ElementWidth lambdaMIN RXa th : R) : R :=
  Rabs (cos (th + RXa)
        * np.sinc (ElementWidth / lambdaMIN * sin (th + RXa)) - 71 / 100).

(** Lines 454-461, with the parameter names of the callee as an argument.
    The result of the call is bound to [x], the name of the image
    abscissas. *)
Definition auto_fnumber_with (accepted : list string) (p : Param)
  : result R :=
  let lambdaMIN := c p / (fc p * (1 + bandwidth p / 200)) in
  let RXa := Rabs (RXangle p) in
  let f := directivity (width p) lambdaMIN RXa in
  x <- fminbound accepted f 0 (PI / 2 - RXa) [("tolx"%string, PI / 100)] ;;
  alpha <- float_getattr x "xopt" ;;
  ret (1 / 2 / tan alpha).

Definition auto_fnumber (p : Param) : result R :=
  auto_fnumber_with fminbound_parameters p.

(** [fNum], line 463. *)
Definition resolve_fnumber (p : Param) : result R :=
  match fnumber p with
  | None => auto_fnumber p
  | Some f => ret f
  end.

End Collaborators.

(** ** Lines 474-497: distances, travel times, fast-time indices *)

Fixpoint mapM {A B : Type} (f : A -> result B) (l : list A)
  : result (list B) :=
  match l with
  | [] => ret []
  | a :: tl => b <- f a ;; bs <- mapM f tl ;; ret (b :: bs)
  end.

(** One row of [delaysTXi*c + np.sqrt((xTi-x)**2 + (zTi-z)**2)], for the
    image point [(xk, zk)], and its [np.min]. *)
Definition dTX_row (c : R) (f : front) (xk zk : R) : result (list R) :=
  s <- np.broadcast Rplus (map (fun xf => (xf - xk) ^ 2) (xTi f))
                          (map (fun zf => (zf - zk) ^ 2) (zTi f)) ;;
  np.broadcast Rplus (map (fun d => d * c) (delaysTXi f)) (map sqrt s).

Definition dTX_point (c : R) (f : front) (xk zk : R) : result R :=
  r <- dTX_row c f xk zk ;; np.min r.

(** Lines 478-481. numpy settles the shapes before it computes, so that a
    shape error, or an empty reduction axis, is raised also when there is
    no image point: the first bind below stands for that. [f = None] is
    passive imaging, where no front exists. *)
Definition dTX (c : R) (f : option front) (x z : list R) : result (list R) :=
  match f with
  | Some f =>
      dTX_point c f 0 0 ;;;
      mapM (fun '(xk, zk) => dTX_point c f xk zk) (combine x z)
  | None => ret (map (fun _ => 0) x)
  end.

(** [x - xe] for a column [x] and a row [xe]. *)
Definition outer_sub (x xe : list R) : list (list R) :=
  map (fun xk => map (fun xee => xk - xee) xe) x.

Definition mat_map2 {A B C : Type} (f : A -> B -> C)
    (M1 : list (list A)) (M2 : list (list B)) : list (list C) :=
  np.map2 (np.map2 f) M1 M2.

Record field : Type := mkField {
  dxT : list (list R);
  dRX : list (list R);
  tau : list (list R);
  idxt : list (list R)
}.

Definition travel_times (p : Param) (f : option front)
    (x z xe ze : list R) : result field :=
  dTX <- dTX (c p) f x z ;;
  let dxT := outer_sub x xe in
  let dzT := outer_sub z ze in
  let dRX := mat_map2 (fun a b => sqrt (a ^ 2 + b ^ 2)) dxT dzT in
  let tau := np.map2 (fun d row => map (fun r => (d + r) / c p) row)
                     dTX dRX in
  let idxt := map (map (fun t => (t - t0 p) * fs p)) tau in
  ret (mkField dxT dRX tau idxt).

(** ** Lines 499-514: the in-range indices *)

Definition in_range (m : method) (nl : nat) (v : R) : bool :=
  let upto (k : Z) := np.leb v (IZR (Z.of_nat nl - k)) in
  andb (np.leb 0 v)
       match m with
       | nearest => upto 1%Z
       | linear => upto 2%Z
       | quadratic => upto 3%Z
       | lanczos3 => upto 3%Z
       | fivepoints => upto 3%Z
       | lanczos5 => upto 4%Z
       end.

Definition in_range_mask (m : method) (nl : nat) (idxt : list (list R))
  : list (list bool) :=
  map (map (in_range m nl)) idxt.

(** ** Lines 516-536: the receive aperture *)

Definition isRXangle (p : Param) : bool :=
  if Req_dec_T (RXangle p) 0 then false else true.

(** [dxT/dRX], one entry: where [dRX] is 0 numpy yields NaN, here [None]. *)
Definition quotient (a b : R) : option R :=
  if Req_dec_T b 0 then None else Some (a / b).

(** [np.abs(np.arcsin(q)-the) <= bound], one entry: a comparison with NaN
    is false. *)
Definition within_angle (bound : R) (q : option R) (the : R) : bool :=
  match q with
  | Some a => np.leb (Rabs (asin a - the)) bound
  | None => false
  end.

Definition aperture (p : Param) (fNum : R) (z THe : list R)
    (dxT dRX : list (list R)) (I : list (list bool))
  : result (list (list bool)) :=
  if np.ltb 0 fNum then
    Iaperture <-
      (if negb (isRXangle p) then
         match radius p with
         | Some _ =>
             ret (mat_map2 (within_angle (atan (1 / 2 / fNum)))
                    (mat_map2 quotient dxT dRX) (map (fun _ => THe) dxT))
         | None =>
             ret (np.map2
                    (fun zk row =>
                       map (fun dx => np.leb (Rabs dx) (zk / 2 / fNum)) row)
                    z dxT)
         end
       else
         raise (AttributeError
                  "'numpy.ndarray' object has no attribute 'tanRX'")) ;;
    ret (mat_map2 andb I Iaperture)
  else ret I.

(** ** Lines 538-594: the coordinates and weights of the sparse matrix *)

(** [s *= w]: the augmented assignment reads the local variable [s] first;
    [None] is a local that no earlier statement has bound. *)
Definition imul (s : option (list R)) (w : list R) : result (list R) :=
  match s with
  | None => raise (UnboundLocalError "s")
  | Some s0 => ret (np.map2 Rmult s0 w)
  end.

(** [idxf + k] *)
Definition shift (k : Z) (idxf : list Z) : list Z :=
  map (fun f => (f + k)%Z) idxf.

(** [np.sinc(idx - k)*np.sinc((idx - k)/2)] *)
Definition lanczos (k : R) (idx : list R) : list R :=
  map (fun d => np.sinc (d - k) * np.sinc ((d - k) / 2)) idx.

Record entries : Type := mkEntries {
  ent_i : list nat;
  ent_j : list Z;
  ent_s : list R;
  ent_tau : list R
}.

(** Lines 540-545: the qualifying pairs and, for each, the position
    [idxt + e*nl] in the flattened signal and its travel time. *)
Definition idx_matrix (nl nc : nat) (idxt : list (list R)) : list (list R) :=
  map (fun row =>
         np.map2 (fun v e => v + IZR (Z.of_nat e * Z.of_nat nl))
                 row (seq 0 nc))
      idxt.

(** [j, i = np.where(I.T)] as the list of the pairs [(j, i)]. *)
Definition pairs (nc : nat) (I : list (list bool)) : list (nat * nat) :=
  np.where_ (np.transpose false nc I).

Definition flat_positions (nc : nat) (I : list (list bool)) : list nat :=
  map (fun '(j, i) => np.ravel_multi_index i j (length I, nc)) (pairs nc I).

(** Lines 548-592: the taps of the chosen scheme. [i] is the array of the
    image points of the qualifying pairs, [idxf] and [idx] the floor and
    the fractional residual of their positions (lines 544-545), [s_local]
    the binding of the local variable [s] when line 549 is reached. The
    result is [(j, s, n_repeat)]. *)
Definition stencil (m : method) (i : list nat) (idxf : list Z) (idx : list R)
    (s_local : option (list R)) : result (list Z * list R * nat) :=
  match m with
  | nearest =>
      ret (map np.round idx, map (fun _ => 1) i, 1%nat)
  | linear =>
      ret (idxf ++ shift 1 idxf,
           map (fun d => - d + 1) idx ++ idx,
           2%nat)
  | quadratic =>
      ret (idxf ++ shift 1 idxf ++ shift 2 idxf,
           map (fun d => (d - 1) * (d - 2) / 2) idx
             ++ map (fun d => - d * (d - 2)) idx
             ++ map (fun d => d * (d - 1) / 2) idx,
           3%nat)
  | lanczos3 =>
      ret (shift (-1) idxf ++ idxf ++ shift 1 idxf ++ shift 2 idxf,
           lanczos (-1) idx ++ lanczos 0 idx ++ lanczos 1 idx
             ++ lanczos 2 idx,
           4%nat)
  | fivepoints =>
      let j := shift (-2) idxf ++ shift (-1) idxf ++ idxf ++ shift 1 idxf
                 ++ shift 2 idxf in
      let idx2 := map (fun d => d ^ 2) idx in
      s <- imul s_local
             (np.map2 (fun d2 d => 1 / 7 * d2 - 1 / 5 * d - 3 / 35) idx2 idx
                ++ np.map2 (fun d2 d => - 1 / 14 * d2 - 1 / 10 * d + 12 / 35)
                     idx2 idx
                ++ map (fun d2 => - 1 / 7 * d2 + 17 / 35) idx2
                ++ np.map2 (fun d2 d => - 1 / 14 * d2 + 1 / 10 * d + 12 / 35)
                     idx2 idx
                ++ np.map2 (fun d2 d => 1 / 7 * d2 + 1 / 5 * d - 3 / 35)
                     idx2 idx) ;;
      ret (j, s, 5%nat)
  | lanczos5 =>
      ret (shift (-2) idxf ++ shift (-1) idxf ++ idxf ++ shift 1 idxf
             ++ shift 2 idxf ++ shift 3 idxf,
           lanczos (-2) idx ++ lanczos (-1) idx ++ lanczos 0 idx
             ++ lanczos 1 idx ++ lanczos 2 idx ++ lanczos 3 idx,
           6%nat)
  end.

(** The body of [dasmtx] from line 540 to line 594. *)
Definition sparse_entries (m : method) (nl nc : nat) (I : list (list bool))
    (idxt tau : list (list R)) (s_local : option (list R)) : result entries :=
  let i := map snd (pairs nc I) in
  let idx := map (np.take (idx_matrix nl nc idxt)) (flat_positions nc I) in
  let tau_I := map (np.take tau) (flat_positions nc I) in
  let idxf := map np.floor idx in
  let idx := np.map2 (fun v f => v - IZR f) idx idxf in
  filled <- stencil m i idxf idx s_local ;;
  let '(j, s, n_repeat) := filled in
  ret (mkEntries (np.tile i n_repeat) j s (np.tile tau_I n_repeat)).

(** Lines 595-596: the phase rotation of I/Q data, a complex number as the
    pair of its real and imaginary parts. *)
Definition phase (isIQ : bool) (wc : R) (e : entries) : values :=
  if isIQ then
    IQvalues (np.map2 (fun t w => (cos (wc * t) * w, sin (wc * t) * w))
                      (ent_tau e) (ent_s e))
  else RFvalues (ent_s e).

(** ** The function, from line 416 to its return *)

Section Dasmtx.

Variable interp1 : list R -> list R -> interp_kind -> list R.
Variable bounded_search : (R -> R) -> R -> R -> R -> R.

(** [nl], [nc] and [isIQ] come from [SIG] (lines 230-239); [xe], [ze] and
    [THe] from [param.getElementPositions()] (line 417). No statement
    before line 549 assigns the local [s]. The last two binds are the call
    of the sparse constructor (lines 605, 609 and 612) and the return. *)
Definition dasmtx (nl nc : nat) (isIQ : bool) (x z : list R)
    (delaysTX : list (option R)) (p : Param) (xe ze THe : list R)
    (m : method) : result (coo_matrix * option bool) :=
  check_subaperture delaysTX ;;;
  let f := if passive p then None
           else Some (TXfront interp1 p xe ze delaysTX) in
  fNum <- resolve_fnumber bounded_search p ;;
  fld <- travel_times p f x z xe ze ;;
  let I := in_range_mask m nl (idxt fld) in
  I <- aperture p fNum z THe (dxT fld) (dRX fld) I ;;
  e <- sparse_entries m nl nc I (idxt fld) (tau fld) None ;;
  let Mflag := orient (TransposeDASMatrix p) (length x) nl nc
                      (map Z.of_nat (ent_i e)) (ent_j e)
                      (phase isIQ (2 * PI * fc p) e) in
  M <- coo_check (fst Mflag) ;;
  ret (M, snd Mflag).

End Dasmtx.

(** ** The formulas of the specification *)

Module Spec.

(** Receive distance from the image point [(x, z)] to the element
    [(x_e, z_e)]. *)
Definition d_RX (x z x_e z_e : R) : R :=
  sqrt ((x - x_e) ^ 2 + (z - z_e) ^ 2).

(** Arrival at [(x, z)] of the wave sent by the front point
    [(x_f, z_f)] with delay [delay_f]. *)
Definition arrival (c x z : R) (f : R * R * R) : R :=
  let '(x_f, z_f, delay_f) := f in
  delay_f * c + sqrt ((x - x_f) ^ 2 + (z - z_f) ^ 2).

(** [m] is the minimum of the values of [l]. *)
Definition is_min (m : R) (l : list R) : Prop :=
  In m l /\ forall v, In v l -> m <= v.

(** Transmit distance. *)
Definition d_TX (is_passive : bool) (c x z : R) (fpoints : list (R * R * R))
    (d : R) : Prop :=
  if is_passive then d = 0 else is_min d (map (arrival c x z) fpoints).

Definition travel_time (c d_tx d_rx : R) : R := (d_tx + d_rx) / c.

Definition fast_time_index (fs t0 tau : R) : R := (tau - t0) * fs.

(** The stencil margin of each scheme. *)
Definition stencil_margin (m : method) (nl : nat) (v : R) : Prop :=
  match m with
  | nearest => (0 <= np.round v <= Z.of_nat nl - 1)%Z
  | linear => (0 <= np.floor v <= Z.of_nat nl - 2)%Z
  | quadratic | lanczos3 | fivepoints =>
      (0 <= np.floor v <= Z.of_nat nl - 3)%Z
  | lanczos5 => (0 <= np.floor v <= Z.of_nat nl - 4)%Z
  end.

End Spec.

(** The points of a front whose three arrays have one length. *)
Definition front_points (f : front) : list (R * R * R) :=
  combine (combine (xTi f) (zTi f)) (delaysTXi f).

Definition well_formed (f : front) : Prop :=
  length (xTi f) = length (zTi f)
  /\ length (xTi f) = length (delaysTXi f)
  /\ xTi f <> [].

(** The front of a single active element of a linear array (lines
    442-447): one abscissa, one delay, and for the depth a row of zeros as
    long as the array, which numpy broadcasts against them. *)
Definition single_element (f : front) : Prop :=
  exists (xf d : R) (n : nat), f = mkFront [xf] (repeat 0 (S n)) [d].

(** The fronts that lines 431-447 build. *)
Definition regular (f : front) : Prop := well_formed f \/ single_element f.

(** An array of [n] rows and [m] columns. *)
Definition has_shape {A : Type} (n m : nat) (M : list (list A)) : Prop :=
  length M = n /\ Forall (fun r => length r = m) M.

(** Entry [(k, e)] of a two-dimensional array. *)
Definition entry {A : Type} (d : A) (M : list (list A)) (k e : nat) : A :=
  nth e (nth k M []) d.

(** For the qualifying pair (element [e], point [k]): the fast-time index,
    its fractional residual, and the position of its floor in the block of
    element [e]. *)
Definition sample (idxt : list (list R)) (ek : nat * nat) : R :=
  entry 0 idxt (snd ek) (fst ek).

Definition delta (idxt : list (list R)) (ek : nat * nat) : R :=
  sample idxt ek - IZR (np.floor (sample idxt ek)).

Definition base_column (nl : nat) (idxt : list (list R)) (ek : nat * nat)
  : Z :=
  (Z.of_nat (fst ek) * Z.of_nat nl + np.floor (sample idxt ek))%Z.

(** The columns that belong to element [e]. *)
Definition in_block (nl e : nat) (col : Z) : Prop :=
  (Z.of_nat e * Z.of_nat nl <= col < (Z.of_nat e + 1) * Z.of_nat nl)%Z.

(** A small configuration used to run the function: passive imaging with a
    linear array, unit speed and sampling rate, no aperture window, so that
    the fast-time index of a point at depth [z] under an element is [z]. *)
Definition unit_param (flag : option bool) : Param :=
  mkParam 1 1 0 (Some 0) 1 75 0 None 0 true flag.

Definition no_interp (y xi : list R) (k : interp_kind) : list R := xi.

Definition no_search (f : R -> R) (a b tol : R) : R := a.

(** The order of the qualifying pairs (element, point): by element, then
    by point. *)
Definition pair_lt (a b : nat * nat) : Prop :=
  (fst a < fst b)%nat \/ (fst a = fst b /\ (snd a < snd b)%nat).

(** The offsets from the floor of the index at which a scheme puts its
    taps, in the order in which lines 554-592 concatenate them. *)
Definition taps (m : method) : list Z :=
  match m with
  | nearest => [0]
  | linear => [0; 1]
  | quadratic => [0; 1; 2]
  | lanczos3 => [-1; 0; 1; 2]
  | fivepoints => [-2; -1; 0; 1; 2]
  | lanczos5 => [-2; -1; 0; 1; 2; 3]
  end%Z.

(** The schemes whose columns are the floor plus an offset and whose
    weights are assigned, not multiplied in place. *)
Definition offset_scheme (m : method) : bool :=
  match m with
  | linear | quadratic | lanczos3 | lanczos5 => true
  | nearest | fivepoints => false
  end.

(** The weight that lines 554-592 give to the tap of offset [t] for the
    fractional residual [d], for the offset schemes. *)
Definition weight (m : method) (t : Z) (d : R) : R :=
  match m with
  | linear => if Z.eqb t 0 then - d + 1 else d
  | quadratic =>
      if Z.eqb t 0 then (d - 1) * (d - 2) / 2
      else if Z.eqb t 1 then - d * (d - 2)
      else d * (d - 1) / 2
  | lanczos3 | lanczos5 =>
      np.sinc (d - IZR t) * np.sinc ((d - IZR t) / 2)
  | nearest | fivepoints => 0
  end.


(** ** Lines 271-406: the checks of the arguments *)

(** [method.lower()], on the ASCII letters. *)
Definition lower_ascii (a : ascii) : ascii :=
  let n := nat_of_ascii a in
  if andb (Nat.leb 65 n) (Nat.leb n 90) then ascii_of_nat (n + 32) else a.

Fixpoint lower (s : string) : string :=
  match s with
  | EmptyString => EmptyString
  | String a r => String (lower_ascii a) (lower r)
  end.

Definition method_name (m : method) : string :=
  match m with
  | nearest => "nearest"
  | linear => "linear"
  | quadratic => "quadratic"
  | lanczos3 => "lanczos3"
  | fivepoints => "5points"
  | lanczos5 => "lanczos5"
  end.

(** Lines 272-273 and 500-514. *)
Definition parse_method (name : string) : result method :=
  match find (fun m => String.eqb (lower name) (method_name m))
             [nearest; linear; quadratic; lanczos3; fivepoints; lanczos5] with
  | Some m => ret m
  | None => raise (ValueError
              "METHOD must be nearest, linear, quadratic, Lanczos3, 5points or Lanczos5.")
  end.

(** A field of [param] that the function tests both for presence and for
    the value [None]. *)
Inductive presence (A : Type) : Type :=
| Absent
| PyNone
| Given (a : A).

Arguments Absent {A}.
Arguments PyNone {A}.
Arguments Given {A} a.

(** The fields of [param] as the caller passes it. An [option] is a field
    that may be absent ([utils.isfield] taken as the presence of the
    field); [raw_fs] is read with [param.get], for which an absent field
    and the value [None] are alike; [raw_radius = Some None] is the radius
    [np.inf]; [raw_elements] is the shape of the array of positions. *)
Record RawParam : Type := mkRaw {
  raw_c : option R;
  raw_fs : option R;
  raw_fnumber : presence R;
  raw_t0 : option R;
  raw_pitch : option R;
  raw_width : option R;
  raw_kerf : option R;
  raw_bandwidth : option R;
  raw_radius : option (option R);
  raw_RXangle : option R;
  raw_passive : option bool;
  raw_Nelements : option nat;
  raw_elements : option (nat * nat);
  raw_fc : option R;
  raw_f0 : option R;
  raw_TransposeDASMatrix : option bool
}.

Definition default {A : Type} (d : A) (o : option A) : A :=
  match o with
  | Some a => a
  | None => d
  end.

Definition require {A : Type} (o : option A) (msg : string) : result A :=
  match o with
  | Some a => ret a
  | None => raise (ValueError msg)
  end.

(** Lines 302-318: the width and the kerf when the f-number is to be
    determined. *)
Definition width_and_kerf (eps pitch : R) (w k : option R)
  : result (R * R) :=
  match w, k with
  | Some w, Some k =>
      py_assert (np.ltb (Rabs (pitch - w - k)) eps)
        "The pitch must be equal to (kerf width + element width)." ;;;
      ret (w, k)
  | None, Some k => ret (pitch - k, k)
  | Some w, None => ret (w, pitch - w)
  | None, None =>
      raise (ValueError
               "An element width (PARAM.width) or kerf width (PARAM.kerf) is required if PARAM.fnumber = [].")
  end.

(** Lines 394-406: the center frequency of I/Q data. *)
Definition center_frequency (eps : R) (fc f0 : option R) : result R :=
  match fc, f0 with
  | Some fc, Some f0 =>
      py_assert (np.ltb (Rabs (fc - f0)) eps)
        "A conflict exists for the center frequency: PARAM.fc and PARAM.f0 are different!" ;;;
      ret fc
  | Some fc, None => ret fc
  | None, Some f0 => ret f0
  | None, None =>
      raise (ValueError
               "A center frequency (PARAM.fc) is required with I/Q data.")
  end.

(** Lines 271-406. [eps] is [utils.eps()], [shape] the shape of the
    two-dimensional array [delaysTX]. The result is the scheme and the
    fields that the rest of the function reads; [fc] and [width] are read
    only for I/Q data or for an automatic f-number, and stand at 0 when
    they were neither given nor derived. *)
Definition check_syntax (eps : R) (nc : nat) (isIQ : bool) (name : string)
    (shape : nat * nat) (rp : RawParam) : result (method * Param) :=
  m <- parse_method name ;;
  let c := default 1540 (raw_c rp) in
  fs <- require (raw_fs rp) "A sampling frequency (PARAM.fs) is required." ;;
  fnumber <- match raw_fnumber rp with
             | Absent => ret (Some 0)
             | PyNone => ret None
             | Given f =>
                 py_assert (np.leb 0 f)
                   "PARAM.fnumber must be non-negative." ;;;
                 ret (Some f)
             end ;;
  let t0 := default 0 (raw_t0 rp) in
  pitch <- require (raw_pitch rp) "A pitch value (PARAM.pitch) is required." ;;
  width <- match fnumber with
           | None =>
               wk <- width_and_kerf eps pitch (raw_width rp) (raw_kerf rp) ;;
               ret (fst wk)
           | Some _ => ret (default 0 (raw_width rp))
           end ;;
  let bandwidth := default 75 (raw_bandwidth rp) in
  match fnumber with
  | None =>
      py_assert (andb (np.ltb 0 bandwidth) (np.ltb bandwidth 200))
        "The fractional bandwidth at -6 dB (PARAM.bandwidth, in %) must be in ]0,200["
  | Some _ => ret tt
  end ;;;
  let radius := default None (raw_radius rp) in
  RXangle <- match raw_RXangle rp with
             | None => ret 0
             | Some a =>
                 if Req_dec_T a 0 then ret 0
                 else
                   py_assert match radius with None => true | _ => false end
                     "PARAM.RXangle must be 0 with a convex array." ;;;
                   ret a
             end ;;
  let passive := default false (raw_passive rp) in
  let shape := if andb (Nat.eqb (fst shape) nc) (negb (Nat.eqb (snd shape) nc))
               then (snd shape, fst shape) else shape in
  py_assert (Nat.eqb (snd shape) nc)
    "DELAYS and/or PARAM.TXdelay must be vectors of length size(SIG,2)." ;;;
  match raw_Nelements rp with
  | Some n =>
      py_assert (Nat.eqb n nc)
        "PARAM.TXdelay or DELAYS must be of length PARAM.Nelements."
  | None => ret tt
  end ;;;
  match raw_elements rp with
  | Some (a, b) =>
      py_assert (orb (orb (Nat.eqb a 1) (Nat.eqb b 1))
                     (orb (Nat.eqb a 2) (Nat.eqb b 2)))
        "PARAM.elements must be a vector, a 2-row or a 2-column matrix that contains the x- (and optionally z-)locations of the transducer elements."
  | None => ret tt
  end ;;;
  fc <- (if isIQ then center_frequency eps (raw_fc rp) (raw_f0 rp)
         else ret (default 0 (raw_fc rp))) ;;
  ret (m, mkParam fs c t0 fnumber fc bandwidth width radius RXangle passive
                  (raw_TransposeDASMatrix rp)).

(** ** Lines 224-247: the optional arguments and the method *)

(** An optional argument of the call: a character string, or anything
    else (an array of delays, a parameter structure). *)
Inductive argument : Type :=
| ArgStr (s : string)
| ArgOther.

Definition isinstance_str (a : argument) : bool :=
  match a with
  | ArgStr _ => true
  | ArgOther => false
  end.

(** [l[k]] for a tuple: a negative position counts from the end, a
    position outside the tuple raises [IndexError]. *)
Definition getitem {A : Type} (l : list A) (k : Z) : result A :=
  let k := if Z.ltb k 0 then (k + Z.of_nat (length l))%Z else k in
  match (if Z.ltb k 0 then None else nth_error l (Z.to_nat k)) with
  | Some a => ret a
  | None => raise (IndexError "tuple index out of range")
  end.

(** Lines 224-226 and 242-247: the method and the count [NArg] of the
    remaining arguments. The statements in between read [x], [z] and
    [SIG] only. *)
Definition method_argument (varargin : list argument)
  : result (argument * Z) :=
  let NArg := (Z.of_nat (length varargin) + 3)%Z in
  py_assert (Z.ltb 3 NArg) "Not enough input arguments." ;;;
  py_assert (Z.ltb NArg 7) "Too many input arguments." ;;;
  last <- getitem varargin (-1) ;;
  if isinstance_str last then
    method <- getitem varargin (NArg - 1) ;;
    ret (method, (NArg - 1)%Z)
  else ret (ArgStr "linear", NArg).

(** * Properties *)

(** ** Comparisons, floor and rounding *)

Lemma leb_true (a b : R) : np.leb a b = true <-> a <= b.
Proof.
  unfold np.leb. destruct (Rle_dec a b); split; intros; try easy.
Qed.

Lemma leb_false (a b : R) : np.leb a b = false <-> b < a.
Proof.
  unfold np.leb. destruct (Rle_dec a b); split; intros; try easy; lra.
Qed.

Lemma ltb_true (a b : R) : np.ltb a b = true <-> a < b.
Proof.
  unfold np.ltb. destruct (Rlt_dec a b); split; intros; try easy.
Qed.

Lemma ltb_false (a b : R) : np.ltb a b = false <-> b <= a.
Proof.
  unfold np.ltb. destruct (Rlt_dec a b); split; intros; try easy; lra.
Qed.

Lemma floor_bounds (v : R) : IZR (np.floor v) <= v < IZR (np.floor v) + 1.
Proof.
  unfold np.floor. destruct (base_Int_part v). lra.
Qed.

Lemma floor_unique (v : R) (n : Z) :
  IZR n <= v < IZR n + 1 -> np.floor v = n.
Proof.
  intros [Hlo Hhi]. unfold np.floor. symmetry. apply Int_part_spec. lra.
Qed.

Lemma floor_IZR (n : Z) : np.floor (IZR n) = n.
Proof. apply floor_unique. lra. Qed.

Lemma floor_add_IZR (v : R) (n : Z) :
  np.floor (v + IZR n) = (np.floor v + n)%Z.
Proof.
  apply floor_unique. rewrite plus_IZR. pose proof (floor_bounds v). lra.
Qed.

Lemma floor_nonneg (v : R) : 0 <= v -> (0 <= np.floor v)%Z.
Proof.
  intros Hv. pose proof (floor_bounds v) as [_ Hhi].
  assert (H : (-1 < np.floor v)%Z) by (apply lt_IZR; lra). lia.
Qed.

Lemma floor_le_int (v : R) (n : Z) : v <= IZR n -> (np.floor v <= n)%Z.
Proof.
  intros Hv. pose proof (floor_bounds v) as [Hlo _].
  apply le_IZR. lra.
Qed.

Lemma round_cases (v : R) :
  np.round v = np.floor v \/ np.round v = (np.floor v + 1)%Z.
Proof.
  unfold np.round, np.floor.
  destruct (Rlt_dec _ _); [now left|].
  destruct (Rlt_dec _ _); [now right|].
  destruct (Z.even _); [now left | now right].
Qed.

Lemma round_nonneg (v : R) : 0 <= v -> (0 <= np.round v)%Z.
Proof.
  intros Hv. pose proof (floor_nonneg v Hv).
  destruct (round_cases v) as [-> | ->]; lia.
Qed.

Lemma round_le_int (v : R) (n : Z) : v <= IZR n -> (np.round v <= n)%Z.
Proof.
  intros Hv.
  pose proof (floor_le_int v n Hv) as Hf.
  pose proof (floor_bounds v) as [Hlo Hhi].
  unfold np.round. fold (np.floor v).
  destruct (Rlt_dec _ _) as [Hd | Hd]; [exact Hf|].
  assert (Hne : np.floor v <> n).
  { intros E. rewrite E in *. lra. }
  destruct (Rlt_dec _ _); [lia|].
  destruct (Z.even _); lia.
Qed.


(** ** Arrays *)

Lemma map2_length {A B C : Type} (f : A -> B -> C) (a : list A) (b : list B) :
  length (np.map2 f a b) = Nat.min (length a) (length b).
Proof.
  unfold np.map2. now rewrite length_map, length_combine.
Qed.

Lemma map2_nth {A B C : Type} (f : A -> B -> C) (a : list A) (b : list B)
    (k : nat) (da : A) (db : B) (dc : C) :
  (k < length a)%nat -> (k < length b)%nat ->
  nth k (np.map2 f a b) dc = f (nth k a da) (nth k b db).
Proof.
  revert b k. induction a as [|u a IH]; intros [|v b] k Ha Hb;
    simpl in *; try lia.
  destruct k as [|k]; [reflexivity|].
  apply IH; lia.
Qed.

Lemma map2_map_l {A A' B C : Type} (f : A' -> B -> C) (g : A -> A')
    (a : list A) (b : list B) :
  np.map2 f (map g a) b = np.map2 (fun u v => f (g u) v) a b.
Proof.
  revert b. induction a as [|u a IH]; intros [|v b]; try reflexivity.
  unfold np.map2 in *. simpl. now rewrite IH.
Qed.

Lemma map2_diag {A B C D : Type} (f : B -> C -> D) (g : A -> B)
    (h : A -> C) (l : list A) :
  np.map2 (fun u v => f u v) (map g l) (map h l)
  = map (fun a => f (g a) (h a)) l.
Proof.
  induction l as [|a l IH]; [reflexivity|].
  unfold np.map2 in *. simpl. now rewrite IH.
Qed.

Lemma where_row_In (row : list bool) (e : nat) :
  In e (np.where_row row) <-> (e < length row)%nat /\ nth e row false = true.
Proof.
  unfold np.where_row. rewrite filter_In, in_seq. intuition lia.
Qed.

Lemma where_from_In (M : list (list bool)) (s r e : nat) :
  In (r, e)
     (concat (map (fun '(r, row) => map (fun e => (r, e)) (np.where_row row))
                  (combine (seq s (length M)) M)))
  <-> (s <= r < s + length M)%nat /\ In e (np.where_row (nth (r - s) M [])).
Proof.
  revert s. induction M as [|row M IH]; intros s; simpl.
  - split; [easy | lia].
  - rewrite in_app_iff, in_map_iff, IH. split.
    + intros [(e' & [= <- <-] & He) | [Hr He]].
      * rewrite Nat.sub_diag. split; [lia | exact He].
      * split; [lia|].
        replace (r - s)%nat with (S (r - S s)) by lia. exact He.
    + intros [Hr He].
      destruct (Nat.eq_dec r s) as [-> | Hne].
      * left. rewrite Nat.sub_diag in He. now exists e.
      * right. split; [lia|].
        replace (r - s)%nat with (S (r - S s)) in He by lia. exact He.
Qed.

Lemma where_In (M : list (list bool)) (r e : nat) :
  In (r, e) (np.where_ M)
  <-> (r < length M)%nat /\ (e < length (nth r M []))%nat
      /\ nth e (nth r M []) false = true.
Proof.
  unfold np.where_. rewrite where_from_In, where_row_In, Nat.sub_0_r.
  intuition lia.
Qed.

Lemma transpose_row {A : Type} (d : A) (nc : nat) (M : list (list A))
    (e : nat) :
  (e < nc)%nat ->
  nth e (np.transpose d nc M) [] = map (fun row => nth e row d) M.
Proof.
  intros He. unfold np.transpose.
  rewrite (nth_indep _ [] (map (fun row => nth 0 row d) M))
    by now rewrite length_map, length_seq.
  rewrite (map_nth (fun e => map (fun row => nth e row d) M)).
  now rewrite seq_nth.
Qed.

Lemma transpose_length {A : Type} (d : A) (nc : nat) (M : list (list A)) :
  length (np.transpose d nc M) = nc.
Proof.
  unfold np.transpose. now rewrite length_map, length_seq.
Qed.

(** The qualifying pairs are the true entries of the mask. *)
Lemma pairs_In (nc : nat) (I : list (list bool)) (e k : nat) :
  In (e, k) (pairs nc I)
  <-> (e < nc)%nat /\ (k < length I)%nat /\ entry false I k e = true.
Proof.
  unfold pairs, entry. rewrite where_In, transpose_length. split.
  - intros (He & Hk & Ht). rewrite transpose_row in Hk, Ht by exact He.
    rewrite length_map in Hk.
    rewrite (nth_indep _ false (nth e [] false)) in Ht
      by now rewrite length_map.
    rewrite (map_nth (fun row => nth e row false)) in Ht. auto.
  - intros (He & Hk & Ht). rewrite transpose_row by exact He.
    rewrite length_map. repeat split; try assumption.
    rewrite (nth_indep _ false (nth e [] false)) by now rewrite length_map.
    now rewrite (map_nth (fun row => nth e row false)).
Qed.

Lemma nth_concat_uniform {A : Type} (nc : nat) (M : list (list A))
    (k e : nat) (d : A) :
  Forall (fun r => length r = nc) M -> (e < nc)%nat ->
  nth (k * nc + e) (concat M) d = nth e (nth k M []) d.
Proof.
  intros HM He. revert k. induction HM as [|row M Hrow HM IH]; intros k.
  - simpl. destruct (k * nc + e)%nat; destruct k; destruct e; reflexivity.
  - simpl. destruct k as [|k]; simpl.
    + apply app_nth1. lia.
    + rewrite app_nth2 by lia.
      replace (nc + k * nc + e - length row)%nat with (k * nc + e)%nat by lia.
      apply IH.
Qed.

(** ** The qualifying pairs and their positions *)

Lemma idx_matrix_rows (nl nc : nat) (idxt : list (list R)) :
  Forall (fun r => length r = nc) idxt ->
  Forall (fun r => length r = nc) (idx_matrix nl nc idxt).
Proof.
  intros H. unfold idx_matrix. apply Forall_map.
  eapply Forall_impl; [|exact H]. intros row Hrow. simpl in *.
  rewrite map2_length, length_seq. lia.
Qed.

Lemma idx_matrix_entry (nl nc : nat) (idxt : list (list R)) (k e : nat) :
  Forall (fun r => length r = nc) idxt ->
  (k < length idxt)%nat -> (e < nc)%nat ->
  entry 0 (idx_matrix nl nc idxt) k e
  = entry 0 idxt k e + IZR (Z.of_nat e * Z.of_nat nl).
Proof.
  intros Hrows Hk He. unfold entry, idx_matrix.
  set (f := fun row : list R => np.map2 _ row (seq 0 nc)).
  rewrite (nth_indep _ [] (f [])) by now rewrite length_map.
  rewrite (map_nth f). subst f. simpl.
  assert (Hlen : length (nth k idxt []) = nc).
  { rewrite Forall_forall in Hrows. apply Hrows. now apply nth_In. }
  rewrite (map2_nth _ _ _ e 0 0%nat 0) by (rewrite ?length_seq; lia).
  now rewrite seq_nth.
Qed.

Lemma take_entry (nc : nat) (M : list (list R)) (n k e : nat) :
  Forall (fun r => length r = nc) M -> (e < nc)%nat ->
  np.take M (np.ravel_multi_index k e (n, nc)) = entry 0 M k e.
Proof.
  intros HM He. unfold np.take, np.ravel_multi_index, entry. simpl.
  now apply nth_concat_uniform.
Qed.

Lemma positions_idx (nl nc : nat) (I : list (list bool))
    (idxt : list (list R)) :
  has_shape (length I) nc idxt ->
  map (np.take (idx_matrix nl nc idxt)) (flat_positions nc I)
  = map (fun ek => sample idxt ek + IZR (Z.of_nat (fst ek) * Z.of_nat nl))
        (pairs nc I).
Proof.
  intros [Hlen Hrows]. unfold flat_positions. rewrite map_map.
  apply map_ext_in. intros [e k] Hin. apply pairs_In in Hin.
  destruct Hin as (He & Hk & _).
  rewrite take_entry by (auto using idx_matrix_rows).
  unfold sample. simpl. apply idx_matrix_entry; auto. lia.
Qed.

Lemma positions_tau (nc : nat) (I : list (list bool)) (tau : list (list R)) :
  Forall (fun r => length r = nc) tau ->
  map (np.take tau) (flat_positions nc I)
  = map (fun ek => entry 0 tau (snd ek) (fst ek)) (pairs nc I).
Proof.
  intros Hrows. unfold flat_positions. rewrite map_map.
  apply map_ext_in. intros [e k] Hin. apply pairs_In in Hin.
  destruct Hin as (He & _). now apply take_entry.
Qed.

(** Under the shapes that the function builds, lines 540-545 compute, for
    each qualifying pair, the column of the floor of its index and the
    fractional residual of the index. *)
Lemma sparse_entries_eq (m : method) (nl nc : nat) (I : list (list bool))
    (idxt tau : list (list R)) (s_local : option (list R)) :
  has_shape (length I) nc idxt ->
  sparse_entries m nl nc I idxt tau s_local
  = (filled <- stencil m (map snd (pairs nc I))
                 (map (base_column nl idxt) (pairs nc I))
                 (map (delta idxt) (pairs nc I)) s_local ;;
     let '(j, s, n_repeat) := filled in
     ret (mkEntries (np.tile (map snd (pairs nc I)) n_repeat) j s
            (np.tile (map (np.take tau) (flat_positions nc I)) n_repeat))).
Proof.
  intros Hshape. unfold sparse_entries.
  rewrite (positions_idx nl nc I idxt Hshape).
  rewrite !map_map.
  set (g := fun ek => sample idxt ek + IZR (Z.of_nat (fst ek) * Z.of_nat nl)).
  assert (Hf : map (fun ek => np.floor (g ek)) (pairs nc I)
               = map (base_column nl idxt) (pairs nc I)).
  { apply map_ext. intros ek. unfold g, base_column.
    rewrite floor_add_IZR. lia. }
  assert (Hd : np.map2 (fun v f => v - IZR f) (map g (pairs nc I))
                 (map (fun ek => np.floor (g ek)) (pairs nc I))
               = map (delta idxt) (pairs nc I)).
  { rewrite (map2_diag (fun v f => v - IZR f) g
               (fun ek => np.floor (g ek))).
    apply map_ext. intros ek. unfold g, delta.
    rewrite floor_add_IZR, plus_IZR. ring. }
  subst g. cbv beta in *. rewrite Hd, Hf. reflexivity.
Qed.

Lemma delta_range (idxt : list (list R)) (ek : nat * nat) :
  0 <= delta idxt ek < 1.
Proof.
  unfold delta. pose proof (floor_bounds (sample idxt ek)). lra.
Qed.

(** ** The transmit sub-aperture (lines 427-429) *)

Lemma transitions_cons (b : bool) (l : list bool) :
  (transitions (b :: l) <= S (transitions l))%nat.
Proof.
  unfold transitions, np.count_nonzero.
  destruct l as [|b' l]; simpl; [lia|].
  destruct (xorb b' b); simpl; lia.
Qed.

Lemma transitions_repeat_app (b : bool) (n : nat) (l : list bool) :
  (transitions (repeat b n ++ l) <= S (transitions l))%nat.
Proof.
  induction n as [|n IH]; simpl; [lia|].
  destruct n as [|n]; simpl in *.
  - apply transitions_cons.
  - unfold transitions, np.count_nonzero in *. simpl in *.
    rewrite xorb_nilpotent. exact IH.
Qed.

Lemma transitions_repeat (b : bool) (n : nat) :
  transitions (repeat b n) = 0%nat.
Proof.
  induction n as [|n IH]; [reflexivity|].
  destruct n as [|n]; [reflexivity|].
  unfold transitions, np.count_nonzero in *. simpl in *.
  rewrite xorb_nilpotent. exact IH.
Qed.

Lemma one_run_transitions (idx : list bool) :
  one_run idx -> (transitions idx <= 2)%nat.
Proof.
  intros (n0 & n1 & n2 & ->).
  pose proof (transitions_repeat_app false n0
                (repeat true n1 ++ repeat false n2)).
  pose proof (transitions_repeat_app true n1 (repeat false n2)).
  pose proof (transitions_repeat false n2). lia.
Qed.

Lemma single_run_one_run (idx : list bool) : single_run idx -> one_run idx.
Proof.
  intros (n0 & n1 & n2 & H). now exists n0, (S n1), n2.
Qed.

(** C3, as amended: the check rejects a delay vector whenever its
    active/inactive indicator changes three times or more, it accepts
    every vector whose active elements form one contiguous run (or are
    all inactive), and so what it rejects never is such a vector. *)
Theorem C3_subaperture_check (delaysTX : list (option R)) :
  (one_run (active delaysTX) -> check_subaperture delaysTX = ret tt)
  /\ ((3 <= transitions (active delaysTX))%nat ->
      raises (check_subaperture delaysTX))
  /\ (raises (check_subaperture delaysTX) -> ~ one_run (active delaysTX)).
Proof.
  assert (Hacc : one_run (active delaysTX) ->
                 check_subaperture delaysTX = ret tt).
  { intros Hrun. apply one_run_transitions in Hrun.
    unfold check_subaperture, py_assert.
    destruct (Nat.ltb_spec (transitions (active delaysTX)) 3);
      [reflexivity | lia]. }
  split; [exact Hacc|]. split.
  - intros Hthree. unfold check_subaperture, py_assert.
    destruct (Nat.ltb_spec (transitions (active delaysTX)) 3); [lia|].
    eexists. reflexivity.
  - intros [e He] Hrun. rewrite (Hacc Hrun) in He. discriminate.
Qed.

(** An aperture in the middle of the array, [NaN, 0, NaN], is one run and
    is accepted. *)
Lemma C3_subaperture_check_witness :
  one_run (active [None; Some 0; None])
  /\ check_subaperture [None; Some 0; None] = ret tt.
Proof.
  assert (H : one_run (active [None; Some 0; None])).
  { exists 1%nat, 1%nat, 1%nat. reflexivity. }
  split; [exact H|].
  exact (proj1 (C3_subaperture_check [None; Some 0; None]) H).
Defined.

(** C3, as stated, fails on [0, NaN, 0]: the indicator changes twice, the
    active elements are two separate runs, and the check accepts the
    vector. *)
Lemma C3_counterexample :
  transitions (active [Some 0; None; Some 0]) = 2%nat
  /\ ~ single_run (active [Some 0; None; Some 0])
  /\ check_subaperture [Some 0; None; Some 0] = ret tt.
Proof.
  split; [reflexivity|]. split; [|reflexivity].
  intros (n0 & n1 & n2 & H). simpl in H.
  destruct n0 as [|n0]; [|discriminate].
  destruct n1 as [|n1]; simpl in H.
  - destruct n2 as [|n2]; simpl in H; [discriminate|].
    injection H as H. destruct n2; discriminate.
  - injection H as H. discriminate.
Qed.

(** ** The orientation (lines 598-613) *)

(** C2, as amended: with the field [TransposeDASMatrix] present, the
    matrix is kept as (points, nl*nc) and the field set to false when the
    number of points exceeds nl*nc; otherwise it is transposed to
    (nl*nc, points) and the field set to true. *)
Theorem C2_orientation (flag0 : bool) (npoints nl nc : nat) (i j : list Z)
    (s : values) :
  let M := fst (orient (Some flag0) npoints nl nc i j s) in
  let flag := snd (orient (Some flag0) npoints nl nc i j s) in
  ((nl * nc < npoints)%nat -> kept npoints nl nc i j M /\ flag = Some false)
  /\ ((npoints <= nl * nc)%nat ->
      transposed npoints nl nc i j M /\ flag = Some true).
Proof.
  unfold orient, kept, transposed.
  destruct (Nat.ltb_spec (nl * nc) npoints); simpl; split; intros; try lia;
    repeat split; reflexivity.
Qed.

Lemma C2_orientation_witness :
  (1 <= 2 * 1)%nat
  /\ transposed 1 2 1 [0%Z] [1%Z]
       (fst (orient (Some false) 1 2 1 [0%Z] [1%Z] (RFvalues [1])))
  /\ snd (orient (Some false) 1 2 1 [0%Z] [1%Z] (RFvalues [1])) = Some true.
Proof.
  assert (H : (1 <= 2 * 1)%nat) by lia.
  split; [exact H|].
  exact (proj2 (C2_orientation false 1 2 1 [0%Z] [1%Z] (RFvalues [1])) H).
Defined.

(** C2, as stated, fails for one image point and two samples: the point
    count is below nl*nc, yet the matrix is not kept as (1, 2) but
    transposed to (2, 1), and the field is set to true. *)
Lemma C2_counterexample :
  (1 < 2 * 1)%nat
  /\ ~ kept 1 2 1 [0%Z] [1%Z]
         (fst (orient (Some false) 1 2 1 [0%Z] [1%Z] (RFvalues [1])))
  /\ shape (fst (orient (Some false) 1 2 1 [0%Z] [1%Z] (RFvalues [1])))
     = (2%nat, 1%nat)
  /\ snd (orient (Some false) 1 2 1 [0%Z] [1%Z] (RFvalues [1])) = Some true.
Proof.
  split; [lia|]. split; [|split; reflexivity].
  intros (Hshape & _). simpl in Hshape. discriminate.
Qed.

(** ** The in-range indices and the aperture (lines 499-536) *)

Lemma in_range_margin (m : method) (nl : nat) (v : R) :
  in_range m nl v = true -> Spec.stencil_margin m nl v.
Proof.
  unfold in_range. rewrite andb_true_iff, leb_true. intros [Hlo Hup].
  destruct m; simpl; apply leb_true in Hup;
    (split; [first [now apply floor_nonneg | now apply round_nonneg]
            | first [now apply floor_le_int | now apply round_le_int]]).
Qed.

Lemma mask_entry (m : method) (nl : nat) (idxt : list (list R)) (k e : nat) :
  entry false (in_range_mask m nl idxt) k e = true ->
  in_range m nl (entry 0 idxt k e) = true.
Proof.
  unfold entry, in_range_mask. revert k.
  induction idxt as [|row idxt IH]; intros k; simpl.
  - destruct k, e; discriminate.
  - destruct k as [|k]; [|apply IH].
    clear IH. revert e. induction row as [|v row IHr]; intros e; simpl.
    + destruct e; discriminate.
    + destruct e as [|e]; [trivial | apply IHr].
Qed.

Lemma map2_andb_nth (a b : list bool) (e : nat) :
  nth e (np.map2 andb a b) false = true -> nth e a false = true.
Proof.
  revert b e. induction a as [|u a IH]; intros [|v b] e; simpl;
    try (destruct e; discriminate).
  destruct e as [|e]; simpl.
  - now intros [-> _]%andb_true_iff.
  - apply IH.
Qed.

Lemma mat_andb_entry (A B : list (list bool)) (k e : nat) :
  entry false (mat_map2 andb A B) k e = true -> entry false A k e = true.
Proof.
  unfold entry, mat_map2. revert B k.
  induction A as [|ra A IH]; intros [|rb B] k; simpl;
    try (destruct k, e; discriminate).
  destruct k as [|k]; simpl.
  - apply map2_andb_nth.
  - apply IH.
Qed.

(** The aperture only removes pairs from the mask. *)
Lemma aperture_subset (p : Param) (fNum : R) (z THe : list R)
    (dxT dRX : list (list R)) (I I' : list (list bool)) (k e : nat) :
  aperture p fNum z THe dxT dRX I = inr I' ->
  entry false I' k e = true -> entry false I k e = true.
Proof.
  unfold aperture. destruct (np.ltb 0 fNum).
  - destruct (negb (isRXangle p)); [|discriminate].
    destruct (radius p); simpl; intros [= <-]; apply mat_andb_entry.
  - now intros [= <-].
Qed.

(** C7: a pair that the function includes in the matrix (it passes the
    in-range test of its scheme and the aperture) has a fast-time index
    within the margin of that scheme: floor in [0, nl-2] for linear, round
    in [0, nl-1] for nearest, floor in [0, nl-3] for quadratic, lanczos3
    and 5points, floor in [0, nl-4] for lanczos5. *)
Theorem C7_stencil_margin (p : Param) (fNum : R) (z THe : list R)
    (fld : field) (m : method) (nl nc : nat) (I : list (list bool))
    (e k : nat) :
  aperture p fNum z THe (dxT fld) (dRX fld)
           (in_range_mask m nl (idxt fld)) = inr I ->
  In (e, k) (pairs nc I) ->
  Spec.stencil_margin m nl (sample (idxt fld) (e, k)).
Proof.
  intros Hap Hin. apply pairs_In in Hin. destruct Hin as (_ & _ & Ht).
  apply in_range_margin, mask_entry.
  exact (aperture_subset _ _ _ _ _ _ _ _ _ _ Hap Ht).
Qed.

Lemma C7_stencil_margin_witness :
  Spec.stencil_margin lanczos5 6 (sample [[3 / 2]] (0%nat, 0%nat)).
Proof.
  assert (Hin : in_range lanczos5 6 (3 / 2) = true).
  { unfold in_range. apply andb_true_iff. split; apply leb_true; simpl; lra. }
  assert (Hap : aperture (unit_param None) 0 [3 / 2] [0] [[0]] [[3 / 2]]
                  (in_range_mask lanczos5 6 [[3 / 2]])
                = inr [[true]]).
  { unfold aperture. replace (np.ltb 0 0) with false
      by (symmetry; apply ltb_false; lra).
    simpl. now rewrite Hin. }
  apply (C7_stencil_margin (unit_param None) 0 [3 / 2] [0]
           (mkField [[0]] [[3 / 2]] [[3 / 2]] [[3 / 2]]) lanczos5 6 1
           [[true]] 0 0 Hap).
  apply pairs_In. repeat split; auto.
Defined.

(** ** The taps of the linear scheme (lines 554-558) *)

Lemma tile_2 {A : Type} (a : list A) : np.tile a 2 = a ++ a.
Proof. unfold np.tile. simpl. now rewrite app_nil_r. Qed.

Lemma nth_error_first {A : Type} (a b : list A) (q : nat) (v : A) :
  nth_error a q = Some v -> nth_error (a ++ b) q = Some v.
Proof.
  intros H. rewrite nth_error_app1; [exact H|].
  apply nth_error_Some. congruence.
Qed.

Lemma nth_error_second {A : Type} (a b : list A) (q : nat) (v : A) :
  nth_error b q = Some v -> nth_error (a ++ b) (length a + q) = Some v.
Proof.
  intros H. rewrite nth_error_app2 by lia.
  now replace (length a + q - length a)%nat with q by lia.
Qed.

(** ** Distances and travel times (lines 474-497) *)

Lemma broadcast_same_length (f : R -> R -> R) (a b : list R) :
  length a = length b -> np.broadcast f a b = ret (np.map2 f a b).
Proof.
  intros Hlen. unfold np.broadcast.
  destruct a as [|u [|u' a]], b as [|v [|v' b]]; try discriminate;
    try reflexivity.
  rewrite Hlen, Nat.eqb_refl. reflexivity.
Qed.

Lemma front_row (c xk zk : R) (a b d : list R) :
  length a = length b -> length a = length d ->
  np.map2 Rplus (map (fun t => t * c) d)
    (map sqrt (np.map2 Rplus (map (fun xf => (xf - xk) ^ 2) a)
                             (map (fun zf => (zf - zk) ^ 2) b)))
  = map (Spec.arrival c xk zk) (combine (combine a b) d).
Proof.
  revert b d. induction a as [|xf a IH]; intros [|zf b] [|t d] Hb Hd;
    try discriminate; [reflexivity|].
  injection Hb as Hb. injection Hd as Hd.
  specialize (IH b d Hb Hd). unfold np.map2 in *. cbn [map combine].
  rewrite IH. unfold Spec.arrival. f_equal. f_equal. f_equal. ring.
Qed.

Lemma dTX_row_points (c : R) (f : front) (xk zk : R) :
  well_formed f ->
  dTX_row c f xk zk = ret (map (Spec.arrival c xk zk) (front_points f)).
Proof.
  intros (Hz & Hd & _). unfold dTX_row.
  rewrite broadcast_same_length by now rewrite !length_map.
  cbn [bind ret]. rewrite broadcast_same_length.
  - unfold front_points. now rewrite front_row.
  - rewrite !length_map, map2_length, !length_map. lia.
Qed.

Lemma fold_Rmin_is_min (tl : list R) (v : R) :
  Spec.is_min (fold_left Rmin tl v) (v :: tl).
Proof.
  revert v. induction tl as [|w tl IH]; intros v; simpl.
  - split; [now left|]. intros u [<- | []]. lra.
  - destruct (IH (Rmin v w)) as [Hin Hle]. split.
    + destruct Hin as [Heq | Hin]; [|now right; right].
      rewrite <- Heq. apply Rmin_case; [now left | now right; left].
    + intros u Hu.
      assert (Hm : fold_left Rmin tl (Rmin v w) <= Rmin v w)
        by (apply Hle; now left).
      pose proof (Rmin_l v w). pose proof (Rmin_r v w).
      destruct Hu as [<- | [<- | Hu]]; try lra.
      apply Hle. now right.
Qed.

Lemma fold_Rmin_repeat (v : R) (n : nat) :
  fold_left Rmin (repeat v n) v = v.
Proof.
  induction n as [|n IH]; [reflexivity|]. simpl.
  replace (Rmin v v) with v; [exact IH|].
  symmetry. apply Rmin_left. lra.
Qed.

Lemma dTX_point_min (c : R) (f : front) (xk zk : R) :
  regular f ->
  exists d : R,
    dTX_point c f xk zk = inr d
    /\ Spec.is_min d (map (Spec.arrival c xk zk) (front_points f)).
Proof.
  intros [Hf | (xf & t & n & ->)].
  - unfold dTX_point. rewrite (dTX_row_points _ _ _ _ Hf). cbn [bind ret].
    destruct Hf as (Hz & Hd & Hne). unfold front_points.
    destruct (xTi f) as [|xf a]; [congruence|].
    destruct (zTi f) as [|zf b]; [discriminate|].
    destruct (delaysTXi f) as [|t d]; [discriminate|].
    simpl. eexists. split; [reflexivity|]. apply fold_Rmin_is_min.
  - exists (Spec.arrival c xk zk (xf, 0, t)). split.
    + unfold dTX_point, dTX_row, np.broadcast.
      cbn [xTi zTi delaysTXi map bind ret repeat np.min].
      rewrite !map_repeat, fold_Rmin_repeat.
      unfold Spec.arrival, ret. do 3 f_equal. ring.
    + unfold front_points. cbn [xTi zTi delaysTXi repeat combine map].
      split; [now left|]. intros v [<- | []]. lra.
Qed.

Lemma mapM_Forall2 {A B : Type} (f : A -> result B) (P : A -> B -> Prop)
    (l : list A) :
  (forall a, exists b, f a = inr b /\ P a b) ->
  exists bs, mapM f l = inr bs /\ Forall2 P l bs.
Proof.
  intros Hf. induction l as [|a l (bs & Hbs & HP)]; simpl.
  - exists []. split; [reflexivity | constructor].
  - destruct (Hf a) as (b & Hb & Hab). rewrite Hb, Hbs. simpl.
    exists (b :: bs). split; [reflexivity | now constructor].
Qed.

Lemma Forall2_nth_error {A B : Type} (P : A -> B -> Prop) (l : list A)
    (bs : list B) (k : nat) (a : A) :
  Forall2 P l bs -> nth_error l k = Some a ->
  exists b, nth_error bs k = Some b /\ P a b.
Proof.
  intros H. revert k. induction H as [|a' b' l bs Hab H IH]; intros k Hk.
  - destruct k; discriminate.
  - destruct k as [|k]; simpl in *.
    + injection Hk as <-. eauto.
    + now apply IH.
Qed.

(** Lines 478-481 return, with the transmit distance of the
    specification for each image point. *)
Lemma dTX_spec (p : Param) (f : front) (x z : list R) :
  regular f -> length x = length z ->
  exists ds : list R,
    dTX (c p) (if passive p then None else Some f) x z = inr ds
    /\ length ds = length x
    /\ forall k xk zk,
         nth_error x k = Some xk -> nth_error z k = Some zk ->
         exists d, nth_error ds k = Some d
                   /\ Spec.d_TX (passive p) (c p) xk zk (front_points f) d.
Proof.
  intros Hf Hxz. unfold Spec.d_TX. destruct (passive p); simpl.
  - exists (map (fun _ => 0) x). split; [reflexivity|].
    split; [apply length_map|]. intros k xk zk Hx _.
    exists 0. split; [|reflexivity].
    now rewrite (map_nth_error _ _ _ Hx).
  - destruct (dTX_point_min (c p) f 0 0 Hf) as (d0 & Hd0 & _).
    rewrite Hd0. simpl.
    destruct (mapM_Forall2
                (fun '(xk, zk) => dTX_point (c p) f xk zk)
                (fun '(xk, zk) d =>
                   Spec.is_min d (map (Spec.arrival (c p) xk zk)
                                      (front_points f)))
                (combine x z)) as (ds & Hds & HP).
    { intros [xk zk]. now apply dTX_point_min. }
    exists ds. split; [exact Hds|]. split.
    + rewrite <- (Forall2_length HP), length_combine. lia.
    + intros k xk zk Hx Hz.
      assert (Hk : nth_error (combine x z) k = Some (xk, zk)).
      { clear - Hx Hz. revert z k Hx Hz.
        induction x as [|a x IH]; intros [|b z] [|k] Hx Hz;
          simpl in *; try discriminate.
        - now injection Hx as <-; injection Hz as <-.
        - now apply IH. }
      exact (Forall2_nth_error _ _ _ _ _ HP Hk).
Qed.

Lemma outer_sub_row (x xe : list R) (k : nat) (xk : R) :
  nth_error x k = Some xk ->
  nth k (outer_sub x xe) [] = map (fun xee => xk - xee) xe.
Proof.
  intros Hk. unfold outer_sub.
  apply nth_error_nth. now rewrite (map_nth_error _ _ _ Hk).
Qed.

Lemma outer_sub_length (x xe : list R) :
  length (outer_sub x xe) = length x.
Proof. apply length_map. Qed.

Lemma nth_error_lt {A : Type} (l : list A) (k : nat) (a : A) :
  nth_error l k = Some a -> (k < length l)%nat.
Proof. intros H. apply nth_error_Some. congruence. Qed.

Lemma select_length {A : Type} (idx : list bool) (v : list A) :
  length idx = length v -> length (select idx v) = np.count_nonzero idx.
Proof.
  unfold select, np.count_nonzero. rewrite length_map. revert v.
  induction idx as [|b idx IH]; intros [|a v] Hlen; try discriminate;
    [reflexivity|].
  injection Hlen as Hlen. simpl. destruct b; simpl; now rewrite IH.
Qed.

Lemma numbers_length (delaysTX : list (option R)) :
  length (numbers delaysTX) = np.count_nonzero (active delaysTX).
Proof.
  unfold np.count_nonzero.
  induction delaysTX as [|[t|] d IH]; simpl; [reflexivity | | exact IH].
  now rewrite IH.
Qed.

Lemma length_one {A : Type} (l : list A) :
  length l = 1%nat -> exists a, l = [a].
Proof.
  destruct l as [|a [|b l]]; try discriminate. now exists a.
Qed.

(** With exactly one active element the front that lines 441-447 build
    is that element alone. *)
Lemma TXfront_single
    (interp1 : list R -> list R -> interp_kind -> list R) (p : Param)
    (xe ze : list R) (delaysTX : list (option R)) :
  np.count_nonzero (active delaysTX) = 1%nat ->
  length xe = length delaysTX -> length ze = length delaysTX ->
  regular (TXfront interp1 p xe ze delaysTX).
Proof.
  intros Hone Hxe Hze. unfold TXfront. rewrite Hone. cbn [Nat.ltb Nat.leb].
  assert (Hidx : length (active delaysTX) = length delaysTX)
    by apply length_map.
  assert (Hx : length (select (active delaysTX) xe) = 1%nat)
    by (rewrite select_length; congruence).
  assert (Hd : length (numbers delaysTX) = 1%nat)
    by now rewrite numbers_length.
  destruct (radius p).
  - left. assert (Hz : length (select (active delaysTX) ze) = 1%nat)
      by (rewrite select_length; congruence).
    repeat split; cbn [xTi zTi delaysTXi]; try congruence.
    intros E. rewrite E in Hx. discriminate.
  - right. destruct (length_one _ Hx) as (xf & ->).
    destruct (length_one _ Hd) as (t & ->).
    destruct delaysTX as [|d0 d]; [discriminate|].
    exists xf, t, (length d). f_equal. simpl. f_equal.
    clear. induction d as [|a d IH]; simpl; [reflexivity | now rewrite IH].
Qed.

(** C1: the function computes, for every image point (x, z) and element
    (x_e, z_e), the receive distance sqrt((x-x_e)^2 + (z-z_e)^2), the
    transmit distance (0 in passive mode, otherwise the minimum over the
    front points of delay*c + distance), the travel time
    (d_TX + d_RX)/c and the fast-time index (tau - t0)*fs. *)
Theorem C1_travel_times (p : Param) (f : front) (x z xe ze : list R) :
  regular f -> length x = length z -> length xe = length ze ->
  exists fld : field,
    travel_times p (if passive p then None else Some f) x z xe ze = inr fld
    /\ forall (k e : nat) (xk zk x_e z_e : R),
         nth_error x k = Some xk -> nth_error z k = Some zk ->
         nth_error xe e = Some x_e -> nth_error ze e = Some z_e ->
         exists d_tx : R,
           Spec.d_TX (passive p) (c p) xk zk (front_points f) d_tx
           /\ entry 0 (dRX fld) k e = Spec.d_RX xk zk x_e z_e
           /\ entry 0 (tau fld) k e
              = Spec.travel_time (c p) d_tx (Spec.d_RX xk zk x_e z_e)
           /\ entry 0 (idxt fld) k e
              = Spec.fast_time_index (fs p) (t0 p)
                  (Spec.travel_time (c p) d_tx (Spec.d_RX xk zk x_e z_e)).
Proof.
  intros Hf Hxz Hez. unfold travel_times.
  destruct (dTX_spec p f x z Hf Hxz) as (ds & Hds & Hlen & Hspec).
  rewrite Hds. cbn [bind]. eexists. split; [reflexivity|].
  cbn [dRX tau idxt].
  intros k e xk zk x_e z_e Hx Hz Hxe Hze.
  destruct (Hspec k xk zk Hx Hz) as (d & Hd & Hmin).
  exists d. split; [exact Hmin|].
  pose proof (nth_error_lt _ _ _ Hx) as Hkx.
  pose proof (nth_error_lt _ _ _ Hz) as Hkz.
  pose proof (nth_error_lt _ _ _ Hxe) as Hex.
  pose proof (nth_error_lt _ _ _ Hze) as Hezz.
  set (g := fun a b : R => sqrt (a ^ 2 + b ^ 2)).
  assert (Hrow : nth k (mat_map2 g (outer_sub x xe) (outer_sub z ze)) []
                 = np.map2 g (map (fun xee => xk - xee) xe)
                             (map (fun zee => zk - zee) ze)).
  { unfold mat_map2.
    rewrite (map2_nth (np.map2 g) _ _ k [] [] [])
      by (rewrite outer_sub_length; lia).
    now rewrite (outer_sub_row _ _ _ _ Hx), (outer_sub_row _ _ _ _ Hz). }
  assert (Hrx : nth e (np.map2 g (map (fun xee => xk - xee) xe)
                                 (map (fun zee => zk - zee) ze)) 0
                = Spec.d_RX xk zk x_e z_e).
  { rewrite (map2_nth g _ _ e 0 0 0) by (rewrite length_map; lia).
    rewrite (nth_indep _ 0 (xk - 0)) by (rewrite length_map; lia).
    rewrite (map_nth (fun xee => xk - xee)).
    rewrite (nth_indep (map _ ze) 0 (zk - 0)) by (rewrite length_map; lia).
    rewrite (map_nth (fun zee => zk - zee)).
    now rewrite (nth_error_nth _ _ 0 Hxe), (nth_error_nth _ _ 0 Hze). }
  assert (Hlenrow : (e < length (np.map2 g (map (fun xee => xk - xee)%R xe)
                                   (map (fun zee => zk - zee)%R ze)))%nat).
  { rewrite map2_length, !length_map. lia. }
  set (h := fun (d : R) (row : list R) => map (fun r => (d + r) / c p) row).
  assert (Htau : nth k (np.map2 h ds
                          (mat_map2 g (outer_sub x xe) (outer_sub z ze))) []
                 = h d (np.map2 g (map (fun xee => xk - xee) xe)
                                  (map (fun zee => zk - zee) ze))).
  { rewrite (map2_nth h _ _ k 0 [] []).
    - now rewrite (nth_error_nth _ _ 0 Hd), Hrow.
    - lia.
    - unfold mat_map2. rewrite map2_length, !outer_sub_length. lia. }
  assert (Ht : entry 0 (np.map2 h ds
                          (mat_map2 g (outer_sub x xe) (outer_sub z ze))) k e
               = Spec.travel_time (c p) d (Spec.d_RX xk zk x_e z_e)).
  { unfold entry. rewrite Htau. unfold h.
    rewrite (nth_indep _ 0 ((d + 0) / c p)) by now rewrite length_map.
    rewrite (map_nth (fun r => (d + r) / c p)). now rewrite Hrx. }
  split; [unfold entry; now rewrite Hrow|]. split; [exact Ht|].
  unfold entry in *.
  set (T := np.map2 h ds (mat_map2 g (outer_sub x xe) (outer_sub z ze)))
    in *.
  set (u := fun t : R => (t - t0 p) * fs p).
  assert (HkT : (k < length T)%nat).
  { unfold T, mat_map2. rewrite !map2_length, !outer_sub_length. lia. }
  rewrite (nth_indep _ [] (map u [])) by now rewrite length_map.
  rewrite (map_nth (map u)).
  assert (HeT : (e < length (nth k T []))%nat).
  { rewrite Htau. unfold h. now rewrite length_map. }
  rewrite (nth_indep _ 0 (u 0)) by now rewrite length_map.
  rewrite (map_nth u). now rewrite Ht.
Qed.

(** An active front of two points, seen from the image point (3, 4) by an
    element at the origin. *)
Lemma C1_travel_times_witness :
  exists (fld : field) (d_tx : R),
    travel_times (mkParam 1 1 0 (Some 0) 1 75 0 None 0 false None)
                 (Some (mkFront [0; 1] [0; 0] [0; 0])) [3] [4] [0] [0]
    = inr fld
    /\ Spec.d_TX false 1 3 4 [(0, 0, 0); (1, 0, 0)] d_tx
    /\ entry 0 (idxt fld) 0 0
       = Spec.fast_time_index 1 0
           (Spec.travel_time 1 d_tx (Spec.d_RX 3 4 0 0)).
Proof.
  assert (Hf : regular (mkFront [0; 1] [0; 0] [0; 0])).
  { left. repeat split; simpl; congruence. }
  destruct (C1_travel_times (mkParam 1 1 0 (Some 0) 1 75 0 None 0 false None)
              (mkFront [0; 1] [0; 0] [0; 0]) [3] [4] [0] [0]
              Hf eq_refl eq_refl) as (fld & Hfld & Hall).
  destruct (Hall 0%nat 0%nat 3 4 0 0 eq_refl eq_refl eq_refl eq_refl)
    as (d & Hd & _ & _ & Hidx).
  exists fld, d. split; [exact Hfld|]. split; [exact Hd | exact Hidx].
Defined.

(** ** Running the function on one image point under one element *)

Lemma aperture_zero (p : Param) (z THe : list R) (dxT dRX : list (list R))
    (I : list (list bool)) :
  aperture p 0 z THe dxT dRX I = ret I.
Proof.
  unfold aperture.
  replace (np.ltb 0 0) with false by (symmetry; apply ltb_false; lra).
  reflexivity.
Qed.

Lemma travel_unit (flag : option bool) (v : R) :
  0 <= v ->
  travel_times (unit_param flag) None [0] [v] [0] [0]
  = ret (mkField [[0]] [[v]] [[v]] [[v]]).
Proof.
  intros Hv.
  unfold travel_times, dTX, outer_sub, mat_map2, np.map2.
  cbn [map combine bind ret c t0 fs unit_param].
  assert (Hs : sqrt ((0 - 0) ^ 2 + (v - 0) ^ 2) = v).
  { replace ((0 - 0) ^ 2 + (v - 0) ^ 2) with (v ^ 2) by ring.
    now apply sqrt_pow2. }
  rewrite Hs. unfold ret. do 2 f_equal; repeat f_equal; lra.
Qed.

(** With [unit_param], one image point at depth [v] under the single
    element has the fast-time index [v]; the function reaches line 540
    with that index and the one-entry mask of the in-range test. *)
Lemma dasmtx_unit (m : method) (nl : nat) (isIQ : bool)
    (flag : option bool) (v : R) :
  0 <= v ->
  dasmtx no_interp no_search nl 1 isIQ [0] [v] [Some 0] (unit_param flag)
         [0] [0] [0] m
  = (e <- sparse_entries m nl 1 [[in_range m nl v]] [[v]] [[v]] None ;;
     M <- coo_check (fst (orient flag 1 nl 1 (map Z.of_nat (ent_i e))
                                 (ent_j e) (phase isIQ (2 * PI * 1) e))) ;;
     ret (M, snd (orient flag 1 nl 1 (map Z.of_nat (ent_i e)) (ent_j e)
                         (phase isIQ (2 * PI * 1) e)))).
Proof.
  intros Hv. unfold dasmtx.
  change (check_subaperture [Some 0]) with (@ret unit tt).
  cbn [bind ret passive unit_param].
  change (resolve_fnumber no_search (unit_param flag)) with (@ret R 0).
  cbn [bind ret]. fold (unit_param flag).
  rewrite (travel_unit flag v Hv). cbn [bind ret idxt dxT dRX tau].
  rewrite aperture_zero. reflexivity.
Qed.

Lemma shape_one (v : R) : has_shape (length [[true]]) 1 [[v]].
Proof. split; [reflexivity | repeat constructor]. Qed.


Lemma in_range_true (m : method) (nl : nat) (v : R) (k : Z) :
  k = match m with
      | nearest => 1 | linear => 2 | lanczos5 => 4 | _ => 3
      end%Z ->
  0 <= v <= IZR (Z.of_nat nl - k) -> in_range m nl v = true.
Proof.
  intros -> [Hlo Hup]. unfold in_range. apply andb_true_iff.
  split; [now apply leb_true|]. destruct m; now apply leb_true.
Qed.

Lemma in_range_above (m : method) (nl : nat) (v : R) :
  IZR (Z.of_nat nl - 1) < v -> in_range m nl v = false.
Proof.
  intros Hv. unfold in_range. apply andb_false_iff. right.
  destruct m; apply leb_false;
    (eapply Rle_lt_trans; [|exact Hv]); apply IZR_le; lia.
Qed.

(** ** The nearest scheme (lines 549-552) *)


Lemma round_residual (d : R) :
  0 <= d < 1 -> np.round d = 0%Z \/ np.round d = 1%Z.
Proof.
  intros Hd. assert (Hf : np.floor d = 0%Z) by (apply floor_unique; lra).
  destruct (round_cases d) as [-> | ->]; rewrite Hf; auto.
Qed.

(** Line 550 rounds [idx], which line 545 has replaced by the fractional
    residual: whatever the element and the fast-time index of a qualifying
    pair, the column written for it is 0 or 1. *)
Lemma nearest_columns (nl nc : nat) (I : list (list bool))
    (idxt tau : list (list R)) (s_local : option (list R)) :
  has_shape (length I) nc idxt ->
  exists ent : entries,
    sparse_entries nearest nl nc I idxt tau s_local = inr ent
    /\ ent_j ent = map (fun ek => np.round (delta idxt ek)) (pairs nc I)
    /\ Forall (fun j => j = 0%Z \/ j = 1%Z) (ent_j ent).
Proof.
  intros Hshape. rewrite (sparse_entries_eq _ _ _ _ _ _ _ Hshape).
  cbn [stencil bind ret]. eexists. split; [reflexivity|].
  cbn [ent_j]. rewrite map_map. split; [reflexivity|].
  apply Forall_forall. intros j [ek [<- _]]%in_map_iff.
  apply round_residual, delta_range.
Qed.


(** ** The 5-point scheme (lines 575-583) *)




(** ** The empty operator (lines 536-545 and 611-613) *)

Lemma no_pairs (nc : nat) (I : list (list bool)) :
  (forall k e, entry false I k e = false) -> pairs nc I = [].
Proof.
  intros Hnone. destruct (pairs nc I) as [|[e k] l] eqn:HP; [reflexivity|].
  assert (Hin : In (e, k) (pairs nc I)) by (rewrite HP; now left).
  apply pairs_In in Hin. destruct Hin as (_ & _ & Ht).
  rewrite Hnone in Ht. discriminate.
Qed.

(** For the five schemes other than 5points, a mask without a qualifying
    pair gives the operator of the declared shape with no stored entry. *)
Lemma empty_operator (m : method) (nl nc npoints : nat)
    (I : list (list bool)) (idxt tau : list (list R))
    (s_local : option (list R)) :
  m <> fivepoints -> pairs nc I = [] ->
  (e <- sparse_entries m nl nc I idxt tau s_local ;;
   ret (orient None npoints nl nc (map Z.of_nat (ent_i e)) (ent_j e)
               (phase false 0 e)))
  = ret (mkCoo (npoints, (nl * nc)%nat) [] [] (RFvalues []), None).
Proof.
  intros Hm HP. unfold sparse_entries, flat_positions. rewrite HP.
  destruct m; try reflexivity. congruence.
Qed.


(** On the same input the other five schemes return the empty operator
    of shape (1, 2). *)
Lemma empty_other_schemes (m : method) :
  m <> fivepoints ->
  dasmtx no_interp no_search 2 1 false [0] [5] [Some 0]
         (unit_param None) [0] [0] [0] m
  = inr (mkCoo (1%nat, 2%nat) [] [] (RFvalues []), None).
Proof.
  intros Hm. rewrite dasmtx_unit by lra.
  rewrite in_range_above by (simpl; lra).
  unfold sparse_entries, flat_positions.
  change (pairs 1 [[false]]) with (@nil (nat * nat)).
  destruct m; try reflexivity. congruence.
Qed.

(** ** The taps below the floor (lines 567-592) *)

(** The in-range test gives a margin above the index and none below: with
    lanczos3 the first tap of a qualifying pair is one column before the
    floor of its index, which for an index in [0, 1) is the column before
    the block of the element. *)
Lemma lanczos3_first_tap (nl nc : nat) (I : list (list bool))
    (idxt tau : list (list R)) (s_local : option (list R))
    (q : nat) (ek : nat * nat) :
  has_shape (length I) nc idxt ->
  nth_error (pairs nc I) q = Some ek ->
  0 <= sample idxt ek < 1 ->
  exists ent : entries,
    sparse_entries lanczos3 nl nc I idxt tau s_local = inr ent
    /\ nth_error (ent_j ent) q
       = Some (Z.of_nat (fst ek) * Z.of_nat nl - 1)%Z
    /\ ~ in_block nl (fst ek) (Z.of_nat (fst ek) * Z.of_nat nl - 1)%Z.
Proof.
  intros Hshape Hq Hs. rewrite (sparse_entries_eq _ _ _ _ _ _ _ Hshape).
  cbn [stencil bind ret]. eexists. split; [reflexivity|]. cbn [ent_j].
  split; [|unfold in_block; lia].
  apply nth_error_first. unfold shift. rewrite map_map.
  rewrite (map_nth_error _ _ _ Hq). f_equal.
  unfold base_column. rewrite (floor_unique (sample idxt ek) 0) by lra. lia.
Qed.




(** ** The automatic f-number (lines 453-461) *)

Lemma tolx_not_a_parameter :
  existsb (String.eqb "tolx") fminbound_parameters = false.
Proof. reflexivity. Qed.

(** With a request for the automatic f-number the function stops at line
    459 or 460, whatever comes before having succeeded. *)
Lemma dasmtx_auto_fnumber_raises
    (interp1 : list R -> list R -> interp_kind -> list R)
    (bounded_search : (R -> R) -> R -> R -> R -> R)
    (nl nc : nat) (isIQ : bool) (x z : list R) (delaysTX : list (option R))
    (p : Param) (xe ze THe : list R) (m : method) :
  fnumber p = None ->
  raises (dasmtx interp1 bounded_search nl nc isIQ x z delaysTX p xe ze THe
                 m).
Proof.
  intros Hauto. unfold dasmtx, raises.
  destruct (check_subaperture delaysTX) as [e | []]; [now exists e|].
  cbn [bind]. unfold resolve_fnumber. rewrite Hauto.
  now eexists.
Qed.

(** C6: the automatic resolution of the f-number never completes. The
    call of line 459 passes the tolerance under the keyword [tolx], which
    is no parameter of [fminbound] (its tolerance is [xtol]): the call
    raises [TypeError]. Were the keyword accepted, line 460 would read the
    attribute [xopt] of the float that the call returns, and raise as
    well: whatever the parameter names of the callee, no f-number is
    returned. *)
Theorem C6_auto_fnumber_raises
    (bounded_search : (R -> R) -> R -> R -> R -> R) (p : Param) :
  auto_fnumber bounded_search p
  = raise (TypeError "fminbound() got an unexpected keyword argument")
  /\ forall accepted : list string,
       raises (auto_fnumber_with bounded_search accepted p).
Proof.
  split; [reflexivity|].
  intros accepted. unfold auto_fnumber_with, fminbound, raises.
  cbn [find fst].
  destruct (negb (existsb (String.eqb "tolx") accepted)).
  - now eexists.
  - cbn [bind ret]. unfold float_getattr. now eexists.
Qed.


(** * Further properties of the function *)

(** ** What the sub-aperture check lets through (lines 427-429) *)

Lemma transitions_step (b b' : bool) (l : list bool) :
  transitions (b :: b' :: l)
  = ((if xorb b' b then 1 else 0) + transitions (b' :: l))%nat.
Proof.
  unfold transitions, np.count_nonzero. simpl. now destruct (xorb b' b).
Qed.

Lemma runs_none (b : bool) (l : list bool) :
  transitions (b :: l) = 0%nat -> b :: l = repeat b (S (length l)).
Proof.
  revert b. induction l as [|b' l IH]; intros b Ht; [reflexivity|].
  rewrite transitions_step in Ht.
  destruct b, b'; simpl in Ht; try discriminate;
    simpl; f_equal; now apply IH.
Qed.

Lemma runs_one (b : bool) (l : list bool) :
  (transitions (b :: l) <= 1)%nat ->
  exists n m : nat, b :: l = repeat b (S n) ++ repeat (negb b) m.
Proof.
  revert b. induction l as [|b' l IH]; intros b Ht.
  - now exists 0%nat, 0%nat.
  - rewrite transitions_step in Ht. destruct (Bool.bool_dec b' b) as [-> | Hne].
    + rewrite xorb_nilpotent in Ht. destruct (IH b Ht) as (n & m & E).
      exists (S n), m. simpl in *. now rewrite E.
    + assert (Hb : b' = negb b) by (destruct b, b'; simpl; congruence).
      subst b'. assert (Hx : xorb (negb b) b = true) by now destruct b.
      rewrite Hx in Ht.
      assert (H0 : transitions (negb b :: l) = 0%nat) by lia.
      exists 0%nat, (S (length l)). simpl. f_equal.
      exact (runs_none (negb b) l H0).
Qed.

Lemma runs_two (b : bool) (l : list bool) :
  (transitions (b :: l) <= 2)%nat ->
  exists n m k : nat,
    b :: l = repeat b (S n) ++ repeat (negb b) m ++ repeat b k.
Proof.
  revert b. induction l as [|b' l IH]; intros b Ht.
  - now exists 0%nat, 0%nat, 0%nat.
  - rewrite transitions_step in Ht. destruct (Bool.bool_dec b' b) as [-> | Hne].
    + rewrite xorb_nilpotent in Ht. destruct (IH b Ht) as (n & m & k & E).
      exists (S n), m, k. simpl in *. now rewrite E.
    + assert (Hb : b' = negb b) by (destruct b, b'; simpl; congruence).
      subst b'. assert (Hx : xorb (negb b) b = true) by now destruct b.
      rewrite Hx in Ht.
      destruct (runs_one (negb b) l) as (n & m & E); [lia|].
      exists 0%nat, (S n), m. rewrite negb_involutive in E.
      simpl in *. now rewrite E.
Qed.

(** X1: the check of line 429 accepts a delay vector exactly when its
    active/inactive indicator has at most three constant stretches, the
    first and the third alike: one contiguous aperture, or two apertures
    that reach the two ends of the array around one inactive stretch. *)
Theorem subaperture_accepted_iff (delaysTX : list (option R)) :
  check_subaperture delaysTX = ret tt
  <-> exists (b : bool) (n m k : nat),
        active delaysTX = repeat b n ++ repeat (negb b) m ++ repeat b k.
Proof.
  unfold check_subaperture, py_assert. split.
  - destruct (Nat.ltb_spec (transitions (active delaysTX)) 3) as [Hlt | Hge];
      [intros _ | discriminate].
    destruct (active delaysTX) as [|b l].
    + now exists false, 0%nat, 0%nat, 0%nat.
    + destruct (runs_two b l) as (n & m & k & E); [lia|].
      now exists b, (S n), m, k.
  - intros (b & n & m & k & E). rewrite E.
    pose proof (transitions_repeat_app b n (repeat (negb b) m ++ repeat b k)).
    pose proof (transitions_repeat_app (negb b) m (repeat b k)).
    pose proof (transitions_repeat b k).
    destruct (Nat.ltb_spec
                (transitions (repeat b n ++ repeat (negb b) m ++ repeat b k))
                3); [reflexivity | lia].
Qed.

(** ** The order of the qualifying pairs (line 541) *)

Lemma sorted_app {A : Type} (R : A -> A -> Prop) (l1 l2 : list A) :
  StronglySorted R l1 -> StronglySorted R l2 ->
  (forall a b, In a l1 -> In b l2 -> R a b) ->
  StronglySorted R (l1 ++ l2).
Proof.
  intros H1 H2 H12. induction H1 as [|a l1 H1 IH Ha]; [exact H2|].
  simpl. constructor.
  - apply IH. intros u v Hu Hv. apply H12; [now right | exact Hv].
  - apply Forall_app. split; [exact Ha|].
    apply Forall_forall. intros v Hv. apply H12; [now left | exact Hv].
Qed.

Lemma sorted_seq (a n : nat) : StronglySorted lt (seq a n).
Proof.
  revert a. induction n as [|n IH]; intros a; simpl; constructor.
  - apply IH.
  - apply Forall_forall. intros v Hv%in_seq. lia.
Qed.

Lemma sorted_filter {A : Type} (R : A -> A -> Prop) (f : A -> bool)
    (l : list A) :
  StronglySorted R l -> StronglySorted R (filter f l).
Proof.
  induction 1 as [|a l Hl IH Ha]; simpl; [constructor|].
  destruct (f a); [|exact IH]. constructor; [exact IH|].
  rewrite Forall_forall in *. intros v [Hv _]%filter_In. now apply Ha.
Qed.

Lemma sorted_map {A B : Type} (R : A -> A -> Prop) (R' : B -> B -> Prop)
    (g : A -> B) (l : list A) :
  (forall a b, R a b -> R' (g a) (g b)) ->
  StronglySorted R l -> StronglySorted R' (map g l).
Proof.
  intros Hg. induction 1 as [|a l Hl IH Ha]; simpl; constructor;
    [exact IH|].
  rewrite Forall_forall in *. intros v (u & <- & Hu)%in_map_iff.
  now apply Hg, Ha.
Qed.

Lemma sorted_NoDup {A : Type} (R : A -> A -> Prop) (l : list A) :
  (forall a, ~ R a a) -> StronglySorted R l -> NoDup l.
Proof.
  intros Hirr. induction 1 as [|a l Hl IH Ha]; constructor; [|exact IH].
  intros Hin. rewrite Forall_forall in Ha. exact (Hirr a (Ha a Hin)).
Qed.

Lemma where_from_sorted (M : list (list bool)) (s : nat) :
  StronglySorted pair_lt
    (concat (map (fun '(r, row) => map (fun e => (r, e)) (np.where_row row))
                 (combine (seq s (length M)) M))).
Proof.
  revert s. induction M as [|row M IH]; intros s; simpl; [constructor|].
  apply sorted_app.
  - apply (sorted_map lt).
    + intros a b Hab. right. simpl. auto.
    + apply sorted_filter, sorted_seq.
  - apply IH.
  - intros a [r e] (e' & <- & _)%in_map_iff Hb.
    apply where_from_In in Hb. left. simpl. lia.
Qed.

(** X2: [np.where(I.T)] lists exactly the qualifying pairs, each once,
    element by element and, for one element, point by point: a pair
    (e, k) is listed if and only if e < nc, k is an image point and the
    mask is true at (k, e); the list has no duplicate and is in the
    column-major order of the mask. *)
Theorem pairs_sorted (nc : nat) (I : list (list bool)) :
  StronglySorted pair_lt (pairs nc I)
  /\ NoDup (pairs nc I)
  /\ forall e k : nat,
       In (e, k) (pairs nc I)
       <-> (e < nc)%nat /\ (k < length I)%nat
           /\ entry false I k e = true.
Proof.
  assert (H : StronglySorted pair_lt (pairs nc I))
    by apply where_from_sorted.
  split; [exact H|]. split; [|intros e k; apply pairs_In].
  apply (sorted_NoDup pair_lt); [|exact H].
  intros [e k] [Hlt | [_ Hlt]]; simpl in Hlt; lia.
Qed.

(** ** The aperture and the f-number (lines 516-536) *)

Lemma map2_nth_error {A B C : Type} (g : A -> B -> C) (a : list A)
    (b : list B) (e : nat) :
  nth_error (np.map2 g a b) e
  = match nth_error a e, nth_error b e with
    | Some u, Some v => Some (g u v)
    | _, _ => None
    end.
Proof.
  unfold np.map2. revert b e.
  induction a as [|u a IH]; intros [|v b] [|e]; simpl; try reflexivity.
  - now destruct (nth_error a e).
  - apply IH.
Qed.

Lemma entry_true (M : list (list bool)) (k e : nat) :
  entry false M k e = true
  <-> exists row, nth_error M k = Some row /\ nth_error row e = Some true.
Proof.
  unfold entry. split.
  - intros H. destruct (nth_error M k) as [row|] eqn:Hk.
    + exists row. split; [reflexivity|].
      rewrite (nth_error_nth _ _ [] Hk) in H.
      destruct (nth_error row e) as [b|] eqn:He.
      * now rewrite (nth_error_nth _ _ false He) in H; subst.
      * apply nth_error_None in He. rewrite nth_overflow in H by exact He.
        discriminate.
    + apply nth_error_None in Hk. rewrite (nth_overflow M []) in H by exact Hk.
      destruct e; discriminate.
  - intros (row & Hk & He).
    now rewrite (nth_error_nth _ _ [] Hk), (nth_error_nth _ _ false He).
Qed.

Lemma entry_mat_map2 {A B : Type} (g : A -> B -> bool)
    (M1 : list (list A)) (M2 : list (list B)) (k e : nat) :
  entry false (mat_map2 g M1 M2) k e = true
  <-> exists r1 r2 u v,
        nth_error M1 k = Some r1 /\ nth_error M2 k = Some r2
        /\ nth_error r1 e = Some u /\ nth_error r2 e = Some v
        /\ g u v = true.
Proof.
  rewrite entry_true. unfold mat_map2. split.
  - intros (row & Hk & He). rewrite map2_nth_error in Hk.
    destruct (nth_error M1 k) as [r1|]; [|discriminate].
    destruct (nth_error M2 k) as [r2|]; [|discriminate].
    injection Hk as <-. rewrite map2_nth_error in He.
    destruct (nth_error r1 e) as [u|] eqn:Hu; [|discriminate].
    destruct (nth_error r2 e) as [v|] eqn:Hv; [|discriminate].
    injection He as He. exists r1, r2, u, v. auto 6.
  - intros (r1 & r2 & u & v & H1 & H2 & Hu & Hv & Hg).
    exists (np.map2 g r1 r2). rewrite !map2_nth_error, H1, H2, Hu, Hv.
    now rewrite Hg.
Qed.

Lemma entry_rows (h : R -> R -> bool) (z : list R) (M : list (list R))
    (k e : nat) :
  entry false (np.map2 (fun zk row => map (h zk) row) z M) k e = true
  <-> exists zk row dx,
        nth_error z k = Some zk /\ nth_error M k = Some row
        /\ nth_error row e = Some dx /\ h zk dx = true.
Proof.
  rewrite entry_true. split.
  - intros (r & Hk & He). rewrite map2_nth_error in Hk.
    destruct (nth_error z k) as [zk|]; [|discriminate].
    destruct (nth_error M k) as [row|]; [|discriminate].
    injection Hk as <-. rewrite nth_error_map in He.
    destruct (nth_error row e) as [dx|] eqn:Hdx; [|discriminate].
    injection He as He. exists zk, row, dx. auto 6.
  - intros (zk & row & dx & Hz & Hk & He & Hh).
    exists (map (h zk) row). rewrite map2_nth_error, Hz, Hk.
    split; [reflexivity|]. now rewrite nth_error_map, He, <- Hh.
Qed.

Lemma mat_andb_mono (A B B' : list (list bool)) (k e : nat) :
  (entry false B k e = true -> entry false B' k e = true) ->
  entry false (mat_map2 andb A B) k e = true ->
  entry false (mat_map2 andb A B') k e = true.
Proof.
  intros HB. rewrite !entry_mat_map2.
  intros (r1 & r2 & u & v & H1 & H2 & Hu & Hv & [-> ->]%andb_true_iff).
  assert (Hb : entry false B k e = true).
  { apply entry_true. now exists r2. }
  apply HB, entry_true in Hb. destruct Hb as (r2' & H2' & Hv').
  now exists r1, r2', true, true.
Qed.

Lemma mat_map2_pointwise {A B : Type} (g1 g2 : A -> B -> bool)
    (M1 : list (list A)) (M2 : list (list B)) (k e : nat) :
  (forall u v, g2 u v = true -> g1 u v = true) ->
  entry false (mat_map2 g2 M1 M2) k e = true ->
  entry false (mat_map2 g1 M1 M2) k e = true.
Proof.
  intros Hg. rewrite !entry_mat_map2.
  intros (r1 & r2 & u & v & H1 & H2 & Hu & Hv & Huv).
  exists r1, r2, u, v. auto 6.
Qed.

Lemma window_shrinks (f1 f2 zk dx : R) :
  0 < f1 <= f2 -> Rabs dx <= zk / 2 / f2 -> Rabs dx <= zk / 2 / f1.
Proof.
  intros [H1 H12] Hdx. pose proof (Rabs_pos dx) as Hpos.
  assert (Hinv : / f2 <= / f1) by (apply Rinv_le_contravar; lra).
  assert (Hf2 : 0 < / f2) by (apply Rinv_0_lt_compat; lra).
  unfold Rdiv in *. nra.
Qed.

Lemma angle_shrinks (f1 f2 a : R) :
  0 < f1 <= f2 -> a <= atan (1 / 2 / f2) -> a <= atan (1 / 2 / f1).
Proof.
  intros [H1 H12] Ha.
  assert (Hinv : / f2 <= / f1) by (apply Rinv_le_contravar; lra).
  assert (Hle : 1 / 2 / f2 <= 1 / 2 / f1) by (unfold Rdiv; lra).
  destruct Hle as [Hlt | Heq].
  - pose proof (atan_increasing _ _ Hlt). lra.
  - now rewrite <- Heq.
Qed.

(** X3: without a reception angle, a larger f-number never widens the
    aperture: every (point, element) pair kept with the f-number f2 is
    kept with any smaller positive f-number f1, for a linear and for a
    convex array. *)
Theorem aperture_monotone (p : Param) (f1 f2 : R) (z THe : list R)
    (dxT dRX : list (list R)) (I I2 : list (list bool)) :
  isRXangle p = false -> 0 < f1 <= f2 ->
  aperture p f2 z THe dxT dRX I = inr I2 ->
  exists I1 : list (list bool),
    aperture p f1 z THe dxT dRX I = inr I1
    /\ forall k e, entry false I2 k e = true -> entry false I1 k e = true.
Proof.
  intros HRX Hf. unfold aperture.
  rewrite (proj2 (ltb_true 0 f1)), (proj2 (ltb_true 0 f2)) by lra.
  rewrite HRX. cbn [negb]. destruct (radius p); cbn [bind ret].
  - intros [= <-]. eexists. split; [reflexivity|]. intros k e.
    apply mat_andb_mono, mat_map2_pointwise.
    intros [a|] v Hu; [|discriminate]. unfold within_angle in *.
    apply leb_true in Hu. apply leb_true. now apply (angle_shrinks f1 f2).
  - intros [= <-]. eexists. split; [reflexivity|]. intros k e.
    apply mat_andb_mono. rewrite !entry_rows.
    intros (zk & row & dx & Hz & Hk & He & Hh%leb_true).
    exists zk, row, dx. repeat split; try assumption.
    apply leb_true. now apply (window_shrinks f1 f2).
Qed.

Lemma isRXangle_unit (flag : option bool) :
  isRXangle (unit_param flag) = false.
Proof.
  unfold isRXangle. cbn [RXangle unit_param].
  destruct (Req_dec_T 0 0) as [_ | Hne]; [reflexivity | now elim Hne].
Qed.

Lemma aperture_monotone_witness :
  exists I2 I1 : list (list bool),
    aperture (unit_param None) 2 [1] [0] [[0]] [[1]] [[true]] = inr I2
    /\ aperture (unit_param None) 1 [1] [0] [[0]] [[1]] [[true]] = inr I1
    /\ forall k e, entry false I2 k e = true -> entry false I1 k e = true.
Proof.
  assert (H12 : 0 < 1 <= 2) by lra.
  assert (H2 : aperture (unit_param None) 2 [1] [0] [[0]] [[1]] [[true]]
               = inr (mat_map2 andb [[true]]
                        [[np.leb (Rabs 0) (1 / 2 / 2)]])).
  { unfold aperture. rewrite (proj2 (ltb_true 0 2)) by lra.
    now rewrite isRXangle_unit. }
  destruct (aperture_monotone (unit_param None) 1 2 [1] [0] [[0]] [[1]]
              [[true]] _ (isRXangle_unit None) H12 H2) as (I1 & H1 & Hsub).
  eexists. exists I1. split; [exact H2|]. split; [exact H1 | exact Hsub].
Defined.

(** X4: with a reception angle and a positive f-number the function never
    returns a matrix: line 534 reads the attribute [tanRX] of the array
    [z], which raises, unless an earlier statement has raised already. *)
Theorem RXangle_aperture_raises
    (interp1 : list R -> list R -> interp_kind -> list R)
    (bounded_search : (R -> R) -> R -> R -> R -> R)
    (nl nc : nat) (isIQ : bool) (x z : list R) (delaysTX : list (option R))
    (p : Param) (xe ze THe : list R) (m : method) (f : R) :
  isRXangle p = true -> fnumber p = Some f -> 0 < f ->
  raises (dasmtx interp1 bounded_search nl nc isIQ x z delaysTX p xe ze THe
                 m).
Proof.
  intros HRX Hfn Hf. unfold dasmtx, raises.
  destruct (check_subaperture delaysTX) as [e | []]; [now exists e|].
  cbn [bind]. unfold resolve_fnumber. rewrite Hfn. cbn [bind ret].
  destruct (travel_times p _ x z xe ze) as [e | fld]; [now exists e|].
  cbn [bind]. unfold aperture.
  rewrite (proj2 (ltb_true 0 f) Hf), HRX. now eexists.
Qed.

Lemma RXangle_aperture_raises_witness :
  raises (dasmtx no_interp no_search 8 1 false [0] [5] [Some 0]
                 (mkParam 1 1 0 (Some 1) 1 75 0 None 1 true None)
                 [0] [0] [0] linear).
Proof.
  apply (RXangle_aperture_raises no_interp no_search 8 1 false [0] [5]
           [Some 0] (mkParam 1 1 0 (Some 1) 1 75 0 None 1 true None)
           [0] [0] [0] linear 1).
  - unfold isRXangle. cbn [RXangle].
    destruct (Req_dec_T 1 0) as [H | _]; [lra | reflexivity].
  - reflexivity.
  - lra.
Defined.

(** ** No active element (lines 441-447 and 479) *)

Lemma select_none {A : Type} (idx : list bool) (v : list A) :
  Forall (fun b => b = false) idx -> select idx v = [].
Proof.
  unfold select. intros H. revert v.
  induction H as [|b idx -> _ IH]; intros [|a v]; try reflexivity.
  simpl. apply IH.
Qed.

Lemma active_none (delaysTX : list (option R)) :
  Forall (fun d => d = None) delaysTX ->
  Forall (fun b => b = false) (active delaysTX)
  /\ numbers delaysTX = [] /\ active delaysTX = repeat false (length delaysTX).
Proof.
  induction 1 as [|d l -> _ (IH1 & IH2 & IH3)]; simpl.
  - repeat split. constructor.
  - repeat split; [now constructor | exact IH2 | now rewrite IH3].
Qed.

Lemma dTX_point_no_front (c : R) (f : front) (xk zk : R) :
  xTi f = [] -> delaysTXi f = [] ->
  exists msg, dTX_point c f xk zk = inl (ValueError msg).
Proof.
  intros Hx Hd. unfold dTX_point, dTX_row. rewrite Hx, Hd. cbn [map].
  destruct (zTi f) as [|zf [|zf' l]]; cbn; now eexists.
Qed.

(** X5: when every delay is NaN and imaging is not passive, the front of
    lines 441-447 is empty and the function raises [ValueError] at line
    479, whatever the image points and the scheme. *)
Theorem no_active_element_raises
    (interp1 : list R -> list R -> interp_kind -> list R)
    (bounded_search : (R -> R) -> R -> R -> R -> R)
    (nl nc : nat) (isIQ : bool) (x z : list R) (delaysTX : list (option R))
    (p : Param) (xe ze THe : list R) (m : method) (f : R) :
  passive p = false -> fnumber p = Some f ->
  Forall (fun d => d = None) delaysTX ->
  exists msg,
    dasmtx interp1 bounded_search nl nc isIQ x z delaysTX p xe ze THe m
    = inl (ValueError msg).
Proof.
  intros Hp Hfn Hnone.
  destruct (active_none delaysTX Hnone) as (Hact & Hnum & Hrep).
  unfold dasmtx.
  assert (Hchk : check_subaperture delaysTX = ret tt).
  { unfold check_subaperture. now rewrite Hrep, transitions_repeat. }
  rewrite Hchk, Hp. cbn [bind ret].
  unfold resolve_fnumber. rewrite Hfn. cbn [bind ret].
  unfold travel_times, dTX.
  destruct (dTX_point_no_front (c p) (TXfront interp1 p xe ze delaysTX) 0 0)
    as (msg & Hmsg).
  - unfold TXfront. rewrite Hrep.
    replace (np.count_nonzero (repeat false (length delaysTX))) with 0%nat.
    + cbn [Nat.ltb Nat.leb xTi]. apply select_none.
      clear. induction (length delaysTX); now constructor.
    + clear. unfold np.count_nonzero.
      induction (length delaysTX); [reflexivity | assumption].
  - unfold TXfront. rewrite Hrep.
    replace (np.count_nonzero (repeat false (length delaysTX))) with 0%nat.
    + cbn [Nat.ltb Nat.leb delaysTXi]. exact Hnum.
    + clear. unfold np.count_nonzero.
      induction (length delaysTX); [reflexivity | assumption].
  - rewrite Hmsg. now exists msg.
Qed.

Lemma no_active_element_raises_witness :
  exists msg,
    dasmtx no_interp no_search 8 2 false [0] [5] [None; None]
           (mkParam 1 1 0 (Some 0) 1 75 0 None 0 false None)
           [0; 1] [0; 0] [0; 0] linear
    = inl (ValueError msg).
Proof.
  apply (no_active_element_raises no_interp no_search 8 2 false [0] [5]
           [None; None] (mkParam 1 1 0 (Some 0) 1 75 0 None 0 false None)
           [0; 1] [0; 0] [0; 0] linear 0).
  - reflexivity.
  - reflexivity.
  - repeat constructor.
Defined.

(** ** A single active element (lines 441-447 and 479) *)

Lemma dTX_point_single (c xf zf t : R) (n : nat) (xk zk : R) :
  dTX_point c (mkFront [xf] (repeat zf (S n)) [t]) xk zk
  = ret (Spec.arrival c xk zk (xf, zf, t)).
Proof.
  unfold dTX_point, dTX_row, np.broadcast.
  cbn [xTi zTi delaysTXi map bind ret repeat np.min].
  rewrite !map_repeat, fold_Rmin_repeat.
  unfold Spec.arrival, ret. do 3 f_equal. ring.
Qed.

(** X6: with exactly one active element the transmit distance of every image
    point is the delay of that element times c plus the distance from the
    point to the element, the element being taken at depth 0 for a linear
    array and at its own depth for a convex one: no interpolation takes
    part. *)
Theorem single_element_dTX
    (interp1 : list R -> list R -> interp_kind -> list R) (p : Param)
    (xe ze : list R) (delaysTX : list (option R)) :
  np.count_nonzero (active delaysTX) = 1%nat ->
  length xe = length delaysTX -> length ze = length delaysTX ->
  exists xf zf t : R,
    select (active delaysTX) xe = [xf]
    /\ numbers delaysTX = [t]
    /\ (radius p = None -> zf = 0)
    /\ (radius p <> None -> select (active delaysTX) ze = [zf])
    /\ forall c xk zk,
         dTX_point c (TXfront interp1 p xe ze delaysTX) xk zk
         = inr (t * c + sqrt ((xk - xf) ^ 2 + (zk - zf) ^ 2)).
Proof.
  intros Hone Hxe Hze.
  assert (Hidx : length (active delaysTX) = length delaysTX)
    by apply length_map.
  assert (Hx : length (select (active delaysTX) xe) = 1%nat)
    by (rewrite select_length; congruence).
  assert (Hz : length (select (active delaysTX) ze) = 1%nat)
    by (rewrite select_length; congruence).
  assert (Hd : length (numbers delaysTX) = 1%nat)
    by now rewrite numbers_length.
  destruct (length_one _ Hx) as (xf & Exf).
  destruct (length_one _ Hz) as (zf & Ezf).
  destruct (length_one _ Hd) as (t & Et).
  unfold TXfront. rewrite Hone, Exf, Et. cbn [Nat.ltb Nat.leb].
  destruct (radius p) as [r|].
  - exists xf, zf, t. repeat split; try assumption; try congruence.
    intros c xk zk. rewrite Ezf.
    exact (dTX_point_single c xf zf t 0 xk zk).
  - exists xf, 0, t. repeat split; try assumption; try congruence.
    intros c xk zk.
    destruct delaysTX as [|d0 d]; [discriminate|].
    replace (map (fun _ : bool => 0) (active (d0 :: d)))
      with (repeat 0 (S (length d))).
    + exact (dTX_point_single c xf 0 t (length d) xk zk).
    + simpl. f_equal. clear.
      induction d as [|a d IH]; simpl; [reflexivity | now rewrite IH].
Qed.

Lemma single_element_dTX_witness :
  exists xf zf t : R,
    select (active [None; Some 2; None]) [-1; 0; 1] = [xf]
    /\ numbers [None; Some 2; None] = [t]
    /\ dTX_point 1
         (TXfront no_interp (mkParam 1 1 0 (Some 0) 1 75 0 None 0 false None)
                  [-1; 0; 1] [0; 0; 0] [None; Some 2; None]) 3 4
       = inr (t * 1 + sqrt ((3 - xf) ^ 2 + (4 - zf) ^ 2)).
Proof.
  destruct (single_element_dTX no_interp
              (mkParam 1 1 0 (Some 0) 1 75 0 None 0 false None)
              [-1; 0; 1] [0; 0; 0] [None; Some 2; None]
              eq_refl eq_refl eq_refl)
    as (xf & zf & t & Hx & Ht & _ & _ & Hall).
  exists xf, zf, t. split; [exact Hx|]. split; [exact Ht|]. apply Hall.
Defined.

(** ** The layout of the coordinate arrays (lines 554-594) *)

Lemma shift_0 (l : list Z) : shift 0 l = l.
Proof.
  unfold shift. rewrite <- (map_id l) at 2. apply map_ext. intros. lia.
Qed.

Lemma block_nth_error {A B T : Type} (g : T -> A -> B) (ts : list T)
    (P : list A) (ti q : nat) (t : T) (a : A) :
  nth_error ts ti = Some t -> nth_error P q = Some a ->
  nth_error (flat_map (fun t => map (g t) P) ts) (ti * length P + q)
  = Some (g t a).
Proof.
  intros Ht Hq. revert ti Ht. induction ts as [|t0 ts IH]; intros ti Ht.
  - destruct ti; discriminate.
  - destruct ti as [|ti]; simpl in *.
    + injection Ht as ->. apply nth_error_first. now apply map_nth_error.
    + rewrite nth_error_app2 by (rewrite length_map; lia).
      rewrite length_map.
      replace (length P + ti * length P + q - length P)%nat
        with (ti * length P + q)%nat by lia.
      now apply IH.
Qed.

Lemma tile_flat_map {A : Type} (l : list A) (n : nat) :
  np.tile l n = flat_map (fun _ => map (fun a => a) l) (seq 0 n).
Proof.
  unfold np.tile. rewrite map_id.
  generalize 0%nat. induction n as [|n IH]; intros s; [reflexivity|].
  simpl. now rewrite <- IH.
Qed.

Lemma tile_nth_error {A : Type} (l : list A) (n ti q : nat) (a : A) :
  (ti < n)%nat -> nth_error l q = Some a ->
  nth_error (np.tile l n) (ti * length l + q) = Some a.
Proof.
  intros Hti Hq. rewrite tile_flat_map.
  apply (block_nth_error (fun (_ : nat) (a : A) => a) (seq 0 n) l ti q ti).
  - rewrite nth_error_nth' with (d := 0%nat) by now rewrite length_seq.
    now rewrite seq_nth.
  - exact Hq.
Qed.

Lemma tile_length {A : Type} (l : list A) (n : nat) :
  length (np.tile l n) = (n * length l)%nat.
Proof.
  unfold np.tile. induction n as [|n IH]; [reflexivity|].
  simpl. rewrite length_app, IH. reflexivity.
Qed.

Lemma shift_map {A : Type} (g : A -> Z) (t : Z) (P : list A) :
  map (fun a => (g a + t)%Z) P = shift t (map g P).
Proof. unfold shift. now rewrite map_map. Qed.

(** The columns and rows that an offset scheme writes, block by block. *)
Lemma offset_scheme_entries (m : method) (nl nc : nat)
    (I : list (list bool)) (idxt tau : list (list R))
    (s_local : option (list R)) :
  offset_scheme m = true -> has_shape (length I) nc idxt ->
  exists ent : entries,
    sparse_entries m nl nc I idxt tau s_local = inr ent
    /\ ent_i ent = np.tile (map snd (pairs nc I)) (length (taps m))
    /\ ent_j ent
       = flat_map (fun t => map (fun ek => (base_column nl idxt ek + t)%Z)
                                (pairs nc I))
                  (taps m)
    /\ length (ent_s ent) = (length (taps m) * length (pairs nc I))%nat
    /\ ent_tau ent
       = np.tile (map (np.take tau) (flat_positions nc I)) (length (taps m)).
Proof.
  intros Hm Hshape. rewrite (sparse_entries_eq _ _ _ _ _ _ _ Hshape).
  destruct m; try discriminate; cbn [stencil bind ret];
    (eexists; split; [reflexivity|]);
    cbn [ent_i ent_j ent_s ent_tau taps length flat_map];
    (split; [reflexivity|]); (split; [|split; [|reflexivity]]);
    try (rewrite !shift_map, shift_0, app_nil_r; reflexivity);
    unfold lanczos; rewrite ?length_app, ?length_map; lia.
Qed.

Lemma taps_layout_aux (m : method) (nl nc : nat) (I : list (list bool))
    (idxt tau : list (list R)) (s_local : option (list R)) :
  offset_scheme m = true -> has_shape (length I) nc idxt ->
  exists ent : entries,
    sparse_entries m nl nc I idxt tau s_local = inr ent
    /\ forall (ti q : nat) (t : Z) (ek : nat * nat),
         nth_error (taps m) ti = Some t ->
         nth_error (pairs nc I) q = Some ek ->
         nth_error (ent_i ent) (ti * length (pairs nc I) + q)
         = Some (snd ek)
         /\ nth_error (ent_j ent) (ti * length (pairs nc I) + q)
            = Some (base_column nl idxt ek + t)%Z.
Proof.
  intros Hm Hshape.
  destruct (offset_scheme_entries m nl nc I idxt tau s_local Hm Hshape)
    as (ent & Hent & Hi & Hj & _).
  exists ent. split; [exact Hent|].
  intros ti q t ek Ht Hq. split.
  - rewrite Hi. rewrite <- (length_map snd (pairs nc I)).
    apply tile_nth_error; [now apply nth_error_lt in Ht|].
    now apply map_nth_error.
  - rewrite Hj.
    exact (block_nth_error (fun t ek => (base_column nl idxt ek + t)%Z)
             (taps m) (pairs nc I) ti q t ek Ht Hq).
Qed.

(** X7: for linear, quadratic, lanczos3 and lanczos5 the three arrays handed
    to the sparse constructor have one length, the number of taps times
    the number of qualifying pairs, and they are laid out tap by tap: the
    entry of tap number ti of the q-th pair stands at position
    ti*n + q, in the row of the pair's image point and in the column
    e*nl + floor(idx) + offset. *)
Theorem taps_layout (m : method) (nl nc : nat) (I : list (list bool))
    (idxt tau : list (list R)) (s_local : option (list R)) :
  offset_scheme m = true -> has_shape (length I) nc idxt ->
  exists ent : entries,
    sparse_entries m nl nc I idxt tau s_local = inr ent
    /\ length (ent_i ent) = (length (taps m) * length (pairs nc I))%nat
    /\ length (ent_j ent) = (length (taps m) * length (pairs nc I))%nat
    /\ length (ent_s ent) = (length (taps m) * length (pairs nc I))%nat
    /\ forall (ti q : nat) (t : Z) (ek : nat * nat),
         nth_error (taps m) ti = Some t ->
         nth_error (pairs nc I) q = Some ek ->
         nth_error (ent_i ent) (ti * length (pairs nc I) + q)
         = Some (snd ek)
         /\ nth_error (ent_j ent) (ti * length (pairs nc I) + q)
            = Some (base_column nl idxt ek + t)%Z.
Proof.
  intros Hm Hshape.
  destruct (offset_scheme_entries m nl nc I idxt tau s_local Hm Hshape)
    as (ent & Hent & Hi & Hj & Hs & _).
  exists ent. split; [exact Hent|].
  split; [now rewrite Hi, tile_length, length_map|].
  split.
  { rewrite Hj. clear. induction (taps m) as [|t ts IH]; [reflexivity|].
    simpl. rewrite length_app, length_map, IH. reflexivity. }
  split; [exact Hs|].
  intros ti q t ek Ht Hq. split.
  - rewrite Hi. rewrite <- (length_map snd (pairs nc I)).
    apply tile_nth_error; [now apply nth_error_lt in Ht|].
    now apply map_nth_error.
  - rewrite Hj.
    exact (block_nth_error (fun t ek => (base_column nl idxt ek + t)%Z)
             (taps m) (pairs nc I) ti q t ek Ht Hq).
Qed.

Lemma taps_layout_witness :
  exists ent : entries,
    sparse_entries lanczos3 4 1 [[true]] [[1]] [[1]] None = inr ent
    /\ length (ent_j ent) = (length (taps lanczos3)
                             * length (pairs 1 [[true]]))%nat.
Proof.
  destruct (taps_layout lanczos3 4 1 [[true]] [[1]] [[1]] None
              eq_refl (shape_one 1)) as (ent & Hent & _ & Hj & _).
  exists ent. split; assumption.
Defined.

Lemma margin_in_block (m : method) (nl nc e : nat) (f t : Z) :
  offset_scheme m = true -> (e < nc)%nat ->
  (0 <= f <= Z.of_nat nl
             - match m with
               | nearest => 1 | linear => 2 | lanczos5 => 4 | _ => 3
               end)%Z ->
  In t (taps m) -> (0 <= t)%Z ->
  in_block nl e (Z.of_nat e * Z.of_nat nl + f + t)
  /\ (0 <= Z.of_nat e * Z.of_nat nl + f + t < Z.of_nat (nl * nc))%Z.
Proof.
  intros Hm He Hf Ht Hpos. unfold in_block.
  assert (Hmax : (f + t < Z.of_nat nl)%Z).
  { destruct m; try discriminate; simpl in Ht;
      repeat (destruct Ht as [<- | Ht]; [lia|]); contradiction. }
  rewrite Nat2Z.inj_mul. nia.
Qed.

(** X8: the in-range test keeps every tap at or above the floor inside the
    samples of its own element: for a pair that passes the test and the
    aperture, each column written for a non-negative offset lies in the
    block of the pair's element, hence in [0, nl*nc). For linear and
    quadratic, whose offsets are all non-negative, these are all the
    columns. *)
Theorem upper_taps_in_block (p : Param) (fNum : R) (z THe : list R)
    (fld : field) (m : method) (nl nc : nat) (I : list (list bool))
    (s_local : option (list R)) :
  offset_scheme m = true ->
  aperture p fNum z THe (dxT fld) (dRX fld)
           (in_range_mask m nl (idxt fld)) = inr I ->
  has_shape (length I) nc (idxt fld) ->
  exists ent : entries,
    sparse_entries m nl nc I (idxt fld) (tau fld) s_local = inr ent
    /\ forall (ti q : nat) (t : Z) (ek : nat * nat),
         nth_error (taps m) ti = Some t -> (0 <= t)%Z ->
         nth_error (pairs nc I) q = Some ek ->
         exists j : Z,
           nth_error (ent_j ent) (ti * length (pairs nc I) + q) = Some j
           /\ in_block nl (fst ek) j
           /\ (0 <= j < Z.of_nat (nl * nc))%Z.
Proof.
  intros Hm Hap Hshape.
  destruct (taps_layout_aux m nl nc I (idxt fld) (tau fld) s_local Hm Hshape)
    as (ent & Hent & Hlay).
  exists ent. split; [exact Hent|].
  intros ti q t [e k] Ht Hpos Hq.
  destruct (Hlay ti q t (e, k) Ht Hq) as [_ Hj].
  eexists. split; [exact Hj|].
  assert (Hin : In (e, k) (pairs nc I)) by (eapply nth_error_In; eauto).
  apply pairs_In in Hin. destruct Hin as (He & _ & Htrue).
  pose proof (in_range_margin m nl _
                (mask_entry m nl (idxt fld) k e
                   (aperture_subset _ _ _ _ _ _ _ _ _ _ Hap Htrue)))
    as Hmargin.
  unfold base_column. cbn [fst].
  apply (margin_in_block m nl nc e); auto.
  - destruct m; try discriminate; exact Hmargin.
  - eapply nth_error_In; eauto.
Qed.

Lemma upper_taps_in_block_witness :
  exists (ent : entries) (j : Z),
    sparse_entries linear 4 1 [[true]] [[1]] [[1]] None = inr ent
    /\ nth_error (ent_j ent) (1 * length (pairs 1 [[true]]) + 0) = Some j
    /\ in_block 4 0 j.
Proof.
  assert (Hap : aperture (unit_param None) 0 [1] [0] [[0]] [[1]]
                  (in_range_mask linear 4 [[1]]) = inr [[true]]).
  { rewrite aperture_zero. unfold in_range_mask. cbn [map].
    rewrite (in_range_true linear 4 1 2 eq_refl); [reflexivity|].
    simpl. lra. }
  destruct (upper_taps_in_block (unit_param None) 0 [1] [0]
              (mkField [[0]] [[1]] [[1]] [[1]]) linear 4 1 [[true]] None
              eq_refl Hap (shape_one 1)) as (ent & Hent & Hall).
  destruct (Hall 1%nat 0%nat 1%Z (0%nat, 0%nat) eq_refl ltac:(lia) eq_refl)
    as (j & Hj & Hblock & _).
  exists ent, j. split; [exact Hent|]. split; [exact Hj | exact Hblock].
Defined.

(** ** The weights (lines 554-592) *)

Lemma lanczos_weight (m : method) (t : Z) (k : R) (D : list R) :
  (m = lanczos3 \/ m = lanczos5) -> k = IZR t ->
  lanczos k D = map (weight m t) D.
Proof.
  intros [-> | ->] ->; reflexivity.
Qed.

Lemma offset_scheme_weights (m : method) (nl nc : nat)
    (I : list (list bool)) (idxt tau : list (list R))
    (s_local : option (list R)) :
  offset_scheme m = true -> has_shape (length I) nc idxt ->
  exists ent : entries,
    sparse_entries m nl nc I idxt tau s_local = inr ent
    /\ ent_s ent
       = flat_map (fun t => map (fun ek => weight m t (delta idxt ek))
                                (pairs nc I))
                  (taps m).
Proof.
  intros Hm Hshape. rewrite (sparse_entries_eq _ _ _ _ _ _ _ Hshape).
  destruct m; try discriminate; cbn [stencil bind ret];
    (eexists; split; [reflexivity|]); cbn [ent_s taps flat_map];
    rewrite app_nil_r.
  - rewrite map_map. reflexivity.
  - rewrite !map_map. reflexivity.
  - rewrite (lanczos_weight lanczos3 (-1)), (lanczos_weight lanczos3 0),
      (lanczos_weight lanczos3 1), (lanczos_weight lanczos3 2);
      auto; try lra.
    now rewrite !map_map.
  - rewrite (lanczos_weight lanczos5 (-2)), (lanczos_weight lanczos5 (-1)),
      (lanczos_weight lanczos5 0), (lanczos_weight lanczos5 1),
      (lanczos_weight lanczos5 2), (lanczos_weight lanczos5 3);
      auto; try lra.
    now rewrite !map_map.
Qed.

Lemma weight_at (m : method) (nl nc : nat) (I : list (list bool))
    (idxt tau : list (list R)) (s_local : option (list R)) :
  offset_scheme m = true -> has_shape (length I) nc idxt ->
  exists ent : entries,
    sparse_entries m nl nc I idxt tau s_local = inr ent
    /\ forall (ti q : nat) (t : Z) (ek : nat * nat),
         nth_error (taps m) ti = Some t ->
         nth_error (pairs nc I) q = Some ek ->
         nth_error (ent_s ent) (ti * length (pairs nc I) + q)
         = Some (weight m t (delta idxt ek)).
Proof.
  intros Hm Hshape.
  destruct (offset_scheme_weights m nl nc I idxt tau s_local Hm Hshape)
    as (ent & Hent & Hs).
  exists ent. split; [exact Hent|]. intros ti q t ek Ht Hq. rewrite Hs.
  exact (block_nth_error (fun t ek => weight m t (delta idxt ek))
           (taps m) (pairs nc I) ti q t ek Ht Hq).
Qed.

(** X9: the three weights of the quadratic scheme reproduce every polynomial
    of degree at most two: for each qualifying pair they add up to 1,
    their first moment over the offsets 0, 1, 2 is the fractional
    residual delta and their second moment is delta squared. *)
Theorem quadratic_weights (nl nc : nat) (I : list (list bool))
    (idxt tau : list (list R)) (s_local : option (list R)) :
  has_shape (length I) nc idxt ->
  exists ent : entries,
    sparse_entries quadratic nl nc I idxt tau s_local = inr ent
    /\ forall (q : nat) (ek : nat * nat),
         nth_error (pairs nc I) q = Some ek ->
         exists w0 w1 w2 : R,
           nth_error (ent_s ent) q = Some w0
           /\ nth_error (ent_s ent) (length (pairs nc I) + q) = Some w1
           /\ nth_error (ent_s ent) (2 * length (pairs nc I) + q) = Some w2
           /\ w0 + w1 + w2 = 1
           /\ w1 + 2 * w2 = delta idxt ek
           /\ w1 + 4 * w2 = delta idxt ek ^ 2.
Proof.
  intros Hshape.
  destruct (weight_at quadratic nl nc I idxt tau s_local eq_refl Hshape)
    as (ent & Hent & Hw).
  exists ent. split; [exact Hent|]. intros q ek Hq.
  pose proof (Hw 0%nat q 0%Z ek eq_refl Hq) as H0.
  pose proof (Hw 1%nat q 1%Z ek eq_refl Hq) as H1.
  pose proof (Hw 2%nat q 2%Z ek eq_refl Hq) as H2.
  rewrite Nat.mul_0_l in H0. rewrite Nat.mul_1_l in H1.
  do 3 eexists. split; [exact H0|]. split; [exact H1|]. split; [exact H2|].
  cbn [weight Z.eqb Pos.eqb]. repeat split; field.
Qed.

Lemma quadratic_weights_witness :
  exists ent : entries,
    sparse_entries quadratic 4 1 [[true]] [[1 / 2]] [[1 / 2]] None = inr ent.
Proof.
  destruct (quadratic_weights 4 1 [[true]] [[1 / 2]] [[1 / 2]] None
              (shape_one (1 / 2))) as (ent & Hent & _).
  now exists ent.
Defined.

Lemma weight_integer (m : method) (t : Z) :
  m = linear \/ m = quadratic -> In t (taps m) ->
  weight m t 0 = if Z.eqb t 0 then 1 else 0.
Proof.
  intros [-> | ->] Ht; cbn [weight]; simpl in Ht;
    repeat (destruct Ht as [<- | Ht]; [simpl; lra|]); contradiction.
Qed.

(** X10: when the fast-time index of a qualifying pair is an integer, the
    linear and the quadratic scheme give the weight 1 to the tap at that
    sample and the weight 0 to their other taps: the beamformed value is
    the sample itself. *)
Theorem integer_index_exact (m : method) (nl nc : nat)
    (I : list (list bool)) (idxt tau : list (list R))
    (s_local : option (list R)) :
  m = linear \/ m = quadratic -> has_shape (length I) nc idxt ->
  exists ent : entries,
    sparse_entries m nl nc I idxt tau s_local = inr ent
    /\ forall (q : nat) (ek : nat * nat) (n : Z),
         nth_error (pairs nc I) q = Some ek ->
         sample idxt ek = IZR n ->
         forall (ti : nat) (t : Z),
           nth_error (taps m) ti = Some t ->
           nth_error (ent_s ent) (ti * length (pairs nc I) + q)
           = Some (if Z.eqb t 0 then 1 else 0).
Proof.
  intros Hlq Hshape.
  assert (Hm : offset_scheme m = true) by (destruct Hlq; now subst).
  destruct (weight_at m nl nc I idxt tau s_local Hm Hshape)
    as (ent & Hent & Hw).
  exists ent. split; [exact Hent|]. intros q ek n Hq Hn ti t Ht.
  rewrite (Hw ti q t ek Ht Hq). f_equal.
  assert (Hd : delta idxt ek = 0).
  { unfold delta. rewrite Hn, floor_IZR. lra. }
  rewrite Hd. apply weight_integer; [exact Hlq|].
  eapply nth_error_In; eauto.
Qed.

Lemma integer_index_exact_witness :
  exists ent : entries,
    sparse_entries quadratic 4 1 [[true]] [[1]] [[1]] None = inr ent
    /\ nth_error (ent_s ent) (0 * length (pairs 1 [[true]]) + 0) = Some 1
    /\ nth_error (ent_s ent) (1 * length (pairs 1 [[true]]) + 0) = Some 0.
Proof.
  destruct (integer_index_exact quadratic 4 1 [[true]] [[1]] [[1]] None
              (or_intror eq_refl) (shape_one 1)) as (ent & Hent & Hall).
  exists ent. split; [exact Hent|]. split.
  - exact (Hall 0%nat (0%nat, 0%nat) 1%Z eq_refl eq_refl 0%nat 0%Z eq_refl).
  - exact (Hall 0%nat (0%nat, 0%nat) 1%Z eq_refl eq_refl 1%nat 1%Z eq_refl).
Defined.

(** ** The nearest scheme, the I/Q phase and the arrays as a whole *)

(** X11: for the nearest scheme every qualifying pair gets one entry, of
    weight 1, in the row of its image point, in the order of the pairs;
    its column is the rounded fractional residual, 0 or 1, whatever the
    element and the index of the pair. *)
Theorem nearest_entries (nl nc : nat) (I : list (list bool))
    (idxt tau : list (list R)) (s_local : option (list R)) :
  has_shape (length I) nc idxt ->
  exists ent : entries,
    sparse_entries nearest nl nc I idxt tau s_local = inr ent
    /\ ent_i ent = map snd (pairs nc I)
    /\ ent_s ent = repeat 1 (length (pairs nc I))
    /\ ent_j ent = map (fun ek => np.round (delta idxt ek)) (pairs nc I)
    /\ Forall (fun j => j = 0%Z \/ j = 1%Z) (ent_j ent).
Proof.
  intros Hshape. rewrite (sparse_entries_eq _ _ _ _ _ _ _ Hshape).
  cbn [stencil bind ret]. eexists. split; [reflexivity|].
  cbn [ent_i ent_j ent_s]. split.
  { unfold np.tile. simpl. apply app_nil_r. }
  split.
  { rewrite map_map. clear. induction (pairs nc I) as [|a l IH];
      [reflexivity | simpl; now rewrite IH]. }
  rewrite map_map. split; [reflexivity|].
  apply Forall_forall. intros j [ek [<- _]]%in_map_iff.
  apply round_residual, delta_range.
Qed.

Lemma nearest_entries_witness :
  exists ent : entries,
    sparse_entries nearest 8 1 [[true]] [[5]] [[5]] None = inr ent
    /\ Forall (fun j => j = 0%Z \/ j = 1%Z) (ent_j ent).
Proof.
  destruct (nearest_entries 8 1 [[true]] [[5]] [[5]] None (shape_one 5))
    as (ent & Hent & _ & _ & _ & Hj).
  exists ent. split; assumption.
Defined.

Lemma blocks_length {A B T : Type} (g : T -> A -> B) (ts : list T)
    (P : list A) :
  length (flat_map (fun t => map (g t) P) ts)
  = (length ts * length P)%nat.
Proof.
  induction ts as [|t ts IH]; [reflexivity|].
  simpl. rewrite length_app, length_map, IH. reflexivity.
Qed.

(** Every scheme but 5points returns arrays of one length. *)
Lemma entries_lengths (m : method) (nl nc : nat) (I : list (list bool))
    (idxt tau : list (list R)) (s_local : option (list R)) :
  m <> fivepoints -> has_shape (length I) nc idxt ->
  exists ent : entries,
    sparse_entries m nl nc I idxt tau s_local = inr ent
    /\ length (ent_i ent) = (length (taps m) * length (pairs nc I))%nat
    /\ length (ent_j ent) = (length (taps m) * length (pairs nc I))%nat
    /\ length (ent_s ent) = (length (taps m) * length (pairs nc I))%nat
    /\ length (ent_tau ent) = (length (taps m) * length (pairs nc I))%nat.
Proof.
  intros Hm Hshape. destruct (offset_scheme m) eqn:Hoff.
  - destruct (offset_scheme_entries m nl nc I idxt tau s_local Hoff Hshape)
      as (ent & Hent & Hi & Hj & Hs & Htau).
    exists ent. split; [exact Hent|].
    split; [now rewrite Hi, tile_length, length_map|].
    split; [rewrite Hj; apply blocks_length|].
    split; [exact Hs|].
    rewrite Htau, tile_length, length_map. unfold flat_positions.
    now rewrite length_map.
  - destruct m; try discriminate; [|congruence].
    rewrite (sparse_entries_eq _ _ _ _ _ _ _ Hshape).
    cbn [stencil bind ret]. eexists. split; [reflexivity|].
    cbn [ent_i ent_j ent_s ent_tau taps length].
    rewrite !tile_length, !length_map. unfold flat_positions.
    rewrite !length_map. repeat split; lia.
Qed.

(** X12: for I/Q data each stored value is the weight of its tap turned by a
    phase: there are as many complex values as weights, and the squared
    modulus of each is the square of its weight. *)
Theorem IQ_phase_modulus (m : method) (nl nc : nat) (I : list (list bool))
    (idxt tau : list (list R)) (s_local : option (list R)) (wc : R) :
  m <> fivepoints -> has_shape (length I) nc idxt ->
  exists (ent : entries) (vals : list (R * R)),
    sparse_entries m nl nc I idxt tau s_local = inr ent
    /\ phase true wc ent = IQvalues vals
    /\ length vals = length (ent_s ent)
    /\ forall (pos : nat) (w : R),
         nth_error (ent_s ent) pos = Some w ->
         exists re im : R,
           nth_error vals pos = Some (re, im) /\ re ^ 2 + im ^ 2 = w ^ 2.
Proof.
  intros Hm Hshape.
  destruct (entries_lengths m nl nc I idxt tau s_local Hm Hshape)
    as (ent & Hent & _ & _ & Hs & Htau).
  exists ent. eexists. split; [exact Hent|]. split; [reflexivity|].
  split; [rewrite map2_length; lia|].
  intros pos w Hw. rewrite map2_nth_error, Hw.
  destruct (nth_error (ent_tau ent) pos) as [t|] eqn:Ht.
  - do 2 eexists. split; [reflexivity|].
    pose proof (sin2_cos2 (wc * t)) as H1. unfold Rsqr in H1.
    replace ((cos (wc * t) * w) ^ 2 + (sin (wc * t) * w) ^ 2)
      with ((sin (wc * t) * sin (wc * t) + cos (wc * t) * cos (wc * t))
            * w ^ 2) by ring.
    rewrite H1. ring.
  - apply nth_error_None in Ht. apply nth_error_lt in Hw. lia.
Qed.

Lemma IQ_phase_modulus_witness :
  exists (ent : entries) (vals : list (R * R)),
    sparse_entries linear 4 1 [[true]] [[1 / 2]] [[1 / 2]] None = inr ent
    /\ phase true (2 * PI) ent = IQvalues vals
    /\ length vals = length (ent_s ent).
Proof.
  destruct (IQ_phase_modulus linear 4 1 [[true]] [[1 / 2]] [[1 / 2]] None
              (2 * PI) ltac:(discriminate) (shape_one (1 / 2)))
    as (ent & vals & Hent & Hph & Hlen & _).
  exists ent, vals. split; [exact Hent|]. split; assumption.
Defined.

(** ** A run of the function on well-formed arguments *)













(** ** The checks of the arguments (lines 271-406) *)

Lemma bind_inr {A B : Type} (m : result A) (k : A -> result B) (b : B) :
  bind m k = inr b -> exists a, m = inr a /\ k a = inr b.
Proof.
  destruct m as [e | a]; [discriminate|]. intros H. now exists a.
Qed.

Lemma py_assert_inr (cond : bool) (msg : string) (u : unit) :
  py_assert cond msg = inr u -> cond = true.
Proof. now destruct cond. Qed.

Lemma require_inr {A : Type} (o : option A) (msg : string) (a : A) :
  require o msg = inr a -> o = Some a.
Proof. destruct o; [now intros [= ->] | discriminate]. Qed.

Lemma method_name_inj (m m' : method) :
  method_name m = method_name m' -> m = m'.
Proof. destruct m, m'; intros H; try reflexivity; discriminate. Qed.

Lemma parse_method_sound (name : string) (m : method) :
  parse_method name = inr m -> lower name = method_name m.
Proof.
  unfold parse_method.
  destruct (find _ _) as [m'|] eqn:Hfind; [|discriminate].
  intros [= <-]. apply find_some in Hfind as [_ Heq].
  now apply String.eqb_eq.
Qed.

Lemma width_and_kerf_inr (eps pitch : R) (w k : option R) (wk : R * R) :
  0 < eps -> width_and_kerf eps pitch w k = inr wk ->
  Rabs (pitch - fst wk - snd wk) < eps.
Proof.
  intros Heps. unfold width_and_kerf.
  destruct w as [w|], k as [k|]; try discriminate.
  - intros (u & Hu%py_assert_inr%ltb_true & [= <-])%bind_inr. exact Hu.
  - intros [= <-]. simpl.
    replace (pitch - w - (pitch - w)) with 0 by ring.
    now rewrite Rabs_R0.
  - intros [= <-]. simpl.
    replace (pitch - (pitch - k) - k) with 0 by ring.
    now rewrite Rabs_R0.
Qed.

(** X15: what a successful check of the arguments guarantees: the method name
    is one of the six (in any case), fs and pitch were given, c is the
    given speed or 1540; the f-number is non-negative or to be determined,
    and in the latter case the bandwidth lies in ]0, 200[ and the width
    and a kerf add up to the pitch within eps; a reception angle other
    than 0 comes with a linear array only; the delays have nc columns,
    possibly after transposition; and for I/Q data the center frequency
    is the given fc, or f0 when fc is absent. *)
Theorem check_syntax_guarantees (eps : R) (nc : nat) (isIQ : bool)
    (name : string) (shape : nat * nat) (rp : RawParam) (m : method)
    (p : Param) :
  0 < eps ->
  check_syntax eps nc isIQ name shape rp = inr (m, p) ->
  lower name = method_name m
  /\ raw_fs rp = Some (fs p)
  /\ raw_pitch rp <> None
  /\ c p = default 1540 (raw_c rp)
  /\ match fnumber p with
     | Some f => 0 <= f
     | None =>
         raw_fnumber rp = PyNone
         /\ 0 < bandwidth p < 200
         /\ exists pitch kerf,
              raw_pitch rp = Some pitch
              /\ Rabs (pitch - width p - kerf) < eps
     end
  /\ (RXangle p <> 0 -> radius p = None)
  /\ (snd shape = nc \/ fst shape = nc)
  /\ (isIQ = true ->
      raw_fc rp = Some (fc p)
      \/ (raw_fc rp = None /\ raw_f0 rp = Some (fc p))).
Proof.
  intros Heps. unfold check_syntax.
  intros (m0 & Hm%parse_method_sound & H)%bind_inr.
  apply bind_inr in H as (fs0 & Hfs%require_inr & H).
  apply bind_inr in H as (fn & Hfn & H).
  apply bind_inr in H as (pitch & Hpitch%require_inr & H).
  apply bind_inr in H as (w & Hw & H).
  apply bind_inr in H as ([] & Hbw & H).
  apply bind_inr in H as (rx & Hrx & H).
  apply bind_inr in H as ([] & Hshape%py_assert_inr & H).
  apply bind_inr in H as ([] & _ & H).
  apply bind_inr in H as ([] & _ & H).
  apply bind_inr in H as (fc0 & Hfc & H).
  injection H as <- <-. cbn [fs c fnumber bandwidth width radius RXangle fc].
  split; [exact Hm|]. split; [exact Hfs|]. split; [congruence|].
  split; [reflexivity|]. split.
  { destruct fn as [f|].
    - destruct (raw_fnumber rp) as [| |f0]; try discriminate.
      + injection Hfn as <-. lra.
      + apply bind_inr in Hfn as (u & Hu%py_assert_inr%leb_true & [= <-]).
        exact Hu.
    - assert (Hnone : raw_fnumber rp = PyNone).
      { destruct (raw_fnumber rp) as [| |f0]; try discriminate;
          [reflexivity|].
        apply bind_inr in Hfn as (u & _ & Hd). discriminate. }
      split; [exact Hnone|].
      apply py_assert_inr, andb_true_iff in Hbw as [H1%ltb_true H2%ltb_true].
      split; [lra|].
      apply bind_inr in Hw as (wk & Hwk & [= <-]).
      exists pitch, (snd wk). split; [exact Hpitch|].
      exact (width_and_kerf_inr eps pitch _ _ wk Heps Hwk). }
  split.
  { intros Hne. destruct (raw_RXangle rp) as [a|].
    - destruct (Req_dec_T a 0); [injection Hrx as <-; now elim Hne|].
      apply bind_inr in Hrx as (u & Hu%py_assert_inr & _).
      now destruct (default None (raw_radius rp)).
    - injection Hrx as <-. now elim Hne. }
  split.
  { destruct (Nat.eqb (fst shape) nc) eqn:E1,
             (Nat.eqb (snd shape) nc) eqn:E2; cbn in Hshape.
    - left. now apply Nat.eqb_eq.
    - right. now apply Nat.eqb_eq.
    - left. now apply Nat.eqb_eq.
    - left. now apply Nat.eqb_eq. }
  intros ->. unfold center_frequency in Hfc.
  destruct (raw_fc rp) as [a|], (raw_f0 rp) as [b|]; try discriminate.
  - apply bind_inr in Hfc as (u & _ & [= <-]). now left.
  - injection Hfc as <-. now left.
  - injection Hfc as <-. now right.
Qed.

Lemma check_syntax_guarantees_witness :
  lower "Linear" = method_name linear.
Proof.
  exact (proj1 (check_syntax_guarantees 1 2 false "Linear" (1%nat, 2%nat)
                  (mkRaw None (Some 1) Absent None (Some 1) None None None
                         None None None None None None None None)
                  linear
                  (mkParam 1 1540 0 (Some 0) 0 75 0 None 0 false None)
                  Rlt_0_1 eq_refl)).
Defined.

(** ** Which pairs qualify (lines 499-545) *)


Lemma mask_entry_iff (m : method) (nl : nat) (idxt : list (list R))
    (k e : nat) :
  entry false (in_range_mask m nl idxt) k e = true
  <-> exists v, nth_error (nth k idxt []) e = Some v
                /\ in_range m nl v = true.
Proof.
  rewrite entry_true. unfold in_range_mask. split.
  - intros (row & Hk & He). rewrite nth_error_map in Hk.
    destruct (nth_error idxt k) as [r|] eqn:Hr; [|discriminate].
    injection Hk as <-. rewrite nth_error_map in He.
    rewrite (nth_error_nth _ _ [] Hr).
    destruct (nth_error r e) as [v|]; [|discriminate].
    injection He as He. now exists v.
  - intros (v & Hv & Hin).
    destruct (nth_error idxt k) as [r|] eqn:Hr.
    + rewrite (nth_error_nth _ _ [] Hr) in Hv.
      exists (map (in_range m nl) r).
      split; [now rewrite nth_error_map, Hr|].
      rewrite nth_error_map, Hv. simpl. now rewrite Hin.
    + apply nth_error_None in Hr. rewrite nth_overflow in Hv by exact Hr.
      destruct e; discriminate.
Qed.

(** X17: with the f-number 0, the full aperture, an entry is written for the
    pair (element e, point k) exactly when e is one of the nc elements
    and the fast-time index of the pair passes the in-range test of the
    scheme; a reception angle plays no part. *)
Theorem full_aperture_pairs (p : Param) (z THe : list R) (fld : field)
    (m : method) (nl nc : nat) (e k : nat) :
  exists I : list (list bool),
    aperture p 0 z THe (dxT fld) (dRX fld) (in_range_mask m nl (idxt fld))
    = inr I
    /\ (In (e, k) (pairs nc I)
        <-> (e < nc)%nat
            /\ exists v, nth_error (nth k (idxt fld) []) e = Some v
                         /\ in_range m nl v = true).
Proof.
  rewrite aperture_zero. eexists. split; [reflexivity|].
  rewrite pairs_In, <- mask_entry_iff. split.
  - now intros (He & _ & Ht).
  - intros [He Ht]. repeat split; try assumption.
    apply entry_true in Ht as (row & Hk & _). now apply nth_error_lt in Hk.
Qed.



(** ** The resampled front (lines 433-440) *)

Lemma linspace_length (a b : R) (num : nat) :
  length (linspace a b num) = num.
Proof. unfold linspace. now rewrite length_map, length_seq. Qed.

(** X19: with two active elements or more, and an interpolation that returns
    one value per query point, the front has four points per active
    element, each with an abscissa, a depth and a delay: it is a front
    for which the transmit distance is defined. *)
Theorem TXfront_resampled
    (interp1 : list R -> list R -> interp_kind -> list R) (p : Param)
    (xe ze : list R) (delaysTX : list (option R)) :
  (forall y xi k, length (interp1 y xi k) = length xi) ->
  (1 < np.count_nonzero (active delaysTX))%nat ->
  length (xTi (TXfront interp1 p xe ze delaysTX))
  = (4 * np.count_nonzero (active delaysTX))%nat
  /\ length (zTi (TXfront interp1 p xe ze delaysTX))
     = (4 * np.count_nonzero (active delaysTX))%nat
  /\ length (delaysTXi (TXfront interp1 p xe ze delaysTX))
     = (4 * np.count_nonzero (active delaysTX))%nat
  /\ regular (TXfront interp1 p xe ze delaysTX).
Proof.
  intros Hinterp Hn. unfold TXfront.
  destruct (Nat.ltb_spec 1 (np.count_nonzero (active delaysTX))) as [_ | Hle];
    [|lia].
  set (n := np.count_nonzero (active delaysTX)) in *.
  assert (Hx : length (interp1 (select (active delaysTX) xe)
                         (linspace 0 (INR n - 1) (4 * n)) cubic)
               = (4 * n)%nat)
    by now rewrite Hinterp, linspace_length.
  assert (Hz : length (if match radius p with None => true | _ => false end
                       then map (fun _ => 0)
                              (interp1 (select (active delaysTX) xe)
                                 (linspace 0 (INR n - 1) (4 * n)) cubic)
                       else interp1 (select (active delaysTX) ze)
                              (linspace 0 (INR n - 1) (4 * n)) spline)
               = (4 * n)%nat).
  { destruct (radius p); [|rewrite length_map; exact Hx].
    now rewrite Hinterp, linspace_length. }
  assert (Hd : length (interp1 (numbers delaysTX)
                         (linspace 0 (INR n - 1) (4 * n)) spline)
               = (4 * n)%nat)
    by now rewrite Hinterp, linspace_length.
  cbn [xTi zTi delaysTXi]. repeat split; try assumption.
  left. repeat split; cbn [xTi zTi delaysTXi]; try congruence.
  intros E. rewrite E in Hx. simpl in Hx. lia.
Qed.

Lemma TXfront_resampled_witness :
  length (xTi (TXfront no_interp (unit_param None) [0; 1] [0; 0]
                       [Some 0; Some 0])) = 8%nat.
Proof.
  exact (proj1 (TXfront_resampled no_interp (unit_param None) [0; 1] [0; 0]
                  [Some 0; Some 0] (fun _ _ _ => eq_refl)
                  (Nat.lt_succ_diag_r 1))).
Defined.

(** ** The taps of the linear scheme, pair by pair *)

(** C8: for the linear scheme the function returns, and every qualifying
    pair (element e, point k) gets exactly two taps in the row of point k:
    one in column e*nl + floor(idx) with weight 1 - delta and one in the
    next column with weight delta, where delta, the fractional residual of
    the index, lies in [0, 1); the two weights add up to 1. The qualifying
    pairs are all the true entries of the mask and only them, each listed
    once: every true entry (k, e) with e < nc is the q-th pair for one q,
    and so has its two taps at the positions q and n + q. *)
Theorem C8_linear_taps (nl nc : nat) (I : list (list bool))
    (idxt tau : list (list R)) (s_local : option (list R)) :
  has_shape (length I) nc idxt ->
  exists ent : entries,
    sparse_entries linear nl nc I idxt tau s_local = inr ent
    /\ NoDup (pairs nc I)
    /\ (forall e k : nat,
          (e < nc)%nat -> (k < length I)%nat ->
          entry false I k e = true ->
          exists q : nat,
            (q < length (pairs nc I))%nat
            /\ nth_error (pairs nc I) q = Some (e, k))
    /\ (forall (q : nat) (ek : nat * nat),
          nth_error (pairs nc I) q = Some ek ->
          (fst ek < nc)%nat /\ (snd ek < length I)%nat
          /\ entry false I (snd ek) (fst ek) = true)
    /\ length (ent_i ent) = (2 * length (pairs nc I))%nat
    /\ length (ent_j ent) = (2 * length (pairs nc I))%nat
    /\ length (ent_s ent) = (2 * length (pairs nc I))%nat
    /\ forall (q : nat) (ek : nat * nat),
         nth_error (pairs nc I) q = Some ek ->
         exists w0 w1 : R,
           nth_error (ent_i ent) q = Some (snd ek)
           /\ nth_error (ent_j ent) q = Some (base_column nl idxt ek)
           /\ nth_error (ent_s ent) q = Some w0
           /\ nth_error (ent_i ent) (length (pairs nc I) + q) = Some (snd ek)
           /\ nth_error (ent_j ent) (length (pairs nc I) + q)
              = Some (base_column nl idxt ek + 1)%Z
           /\ nth_error (ent_s ent) (length (pairs nc I) + q) = Some w1
           /\ w0 = 1 - delta idxt ek
           /\ w1 = delta idxt ek
           /\ 0 <= delta idxt ek < 1
           /\ w0 + w1 = 1.
Proof.
  intros Hshape. rewrite (sparse_entries_eq _ _ _ _ _ _ _ Hshape).
  simpl. eexists. split; [reflexivity|]. simpl.
  split.
  { apply (sorted_NoDup pair_lt); [|apply where_from_sorted].
    intros [e k] [Hlt | [_ Hlt]]; simpl in Hlt; lia. }
  split.
  { intros e k He Hk Ht.
    assert (Hin : In (e, k) (pairs nc I)) by (apply pairs_In; auto).
    apply In_nth_error in Hin as (q & Hq). exists q. split; [|exact Hq].
    now apply nth_error_lt in Hq. }
  split.
  { intros q [e k] Hq. apply nth_error_In, pairs_In in Hq. exact Hq. }
  set (P := pairs nc I).
  rewrite tile_2. unfold shift.
  rewrite !length_app, !length_map.
  repeat (split; [lia|]).
  intros q ek Hq.
  exists (1 - delta idxt ek), (delta idxt ek).
  assert (Hi : nth_error (map snd P) q = Some (snd ek))
    by now apply map_nth_error.
  assert (Hj : nth_error (map (base_column nl idxt) P) q
               = Some (base_column nl idxt ek))
    by now apply map_nth_error.
  assert (Hd : nth_error (map (delta idxt) P) q = Some (delta idxt ek))
    by now apply map_nth_error.
  split; [now apply nth_error_first|].
  split; [now apply nth_error_first|].
  split.
  { apply nth_error_first. rewrite map_map.
    rewrite (map_nth_error _ _ _ Hq). f_equal. ring. }
  split.
  { rewrite <- (length_map snd P). now apply nth_error_second. }
  split.
  { rewrite <- (length_map (base_column nl idxt) P).
    apply nth_error_second. rewrite map_map.
    exact (map_nth_error (fun x => (base_column nl idxt x + 1)%Z) _ _ Hq). }
  split.
  { replace (length P)
      with (length (map (fun d => - d + 1) (map (delta idxt) P)))
      by now rewrite !length_map.
    now apply nth_error_second. }
  split; [reflexivity|]. split; [reflexivity|].
  split; [apply delta_range | ring].
Qed.

(** The mask with the single true entry (0, 0): that entry is a pair, and
    its two taps are stored with weights that add up to 1. *)
Lemma C8_linear_taps_witness :
  exists (ent : entries) (q : nat) (w0 w1 : R),
    sparse_entries linear 4 1 [[true]] [[1 / 2]] [[1 / 2]] None = inr ent
    /\ nth_error (pairs 1 [[true]]) q = Some (0%nat, 0%nat)
    /\ nth_error (ent_s ent) q = Some w0
    /\ nth_error (ent_s ent) (length (pairs 1 [[true]]) + q) = Some w1
    /\ w0 + w1 = 1.
Proof.
  assert (Hshape : has_shape (length [[true]]) 1 [[1 / 2]]).
  { split; [reflexivity|]. repeat constructor. }
  destruct (C8_linear_taps 4 1 [[true]] [[1 / 2]] [[1 / 2]] None Hshape)
    as (ent & Hent & _ & Hall & _ & _ & _ & _ & Htaps).
  destruct (Hall 0%nat 0%nat (Nat.lt_0_succ 0) (Nat.lt_0_succ 0) eq_refl)
    as (q & _ & Hq).
  destruct (Htaps q (0%nat, 0%nat) Hq)
    as (w0 & w1 & _ & _ & H0 & _ & _ & H1 & _ & _ & _ & Hsum).
  exists ent, q, w0, w1. repeat split; assumption.
Defined.


(** ** The method argument (lines 224-247) *)

Lemma getitem_beyond {A : Type} (l : list A) (k : Z) :
  (Z.of_nat (length l) <= k)%Z ->
  getitem l k = raise (IndexError "tuple index out of range").
Proof.
  intros Hk. unfold getitem.
  destruct (Z.ltb_spec k 0) as [Hneg | _]; [lia|].
  destruct (Z.ltb_spec k 0) as [Hneg | _]; [lia|].
  assert (Hnone : nth_error l (Z.to_nat k) = None)
    by (apply nth_error_None; lia).
  now rewrite Hnone.
Qed.

Lemma getitem_last {A : Type} (l : list A) (a : A) :
  getitem l (-1) = inr a ->
  l <> [] /\ nth_error l (length l - 1) = Some a.
Proof.
  unfold getitem. cbn [Z.ltb Z.compare].
  destruct (Z.ltb_spec (-1 + Z.of_nat (length l)) 0) as [_ | Hpos];
    [discriminate|].
  replace (Z.to_nat (-1 + Z.of_nat (length l))) with (length l - 1)%nat
    by lia.
  destruct (nth_error l (length l - 1)) as [b|] eqn:Hb; [|discriminate].
  intros [= <-]. split; [|reflexivity].
  intros ->. simpl in Hpos. lia.
Qed.

(** X14: a method name given as the last argument is never accepted: line
    243 reads [varargin] at the position [NArg - 1], which is two
    places beyond its end, and raises [IndexError]. Whenever lines
    224-247 complete, the last argument is no string and the method is
    'linear'. *)
Theorem method_argument_linear (varargin : list argument) :
  (forall (method : argument) (n : Z),
      method_argument varargin = inr (method, n) ->
      method = ArgStr "linear"
      /\ n = (Z.of_nat (length varargin) + 3)%Z
      /\ nth_error varargin (length varargin - 1) = Some ArgOther)
  /\ (forall name : string,
         (1 <= length varargin <= 3)%nat ->
         nth_error varargin (length varargin - 1) = Some (ArgStr name) ->
         method_argument varargin
         = inl (IndexError "tuple index out of range")).
Proof.
  split.
  - intros method n. unfold method_argument.
    intros ([] & _ & H)%bind_inr.
    apply bind_inr in H as ([] & _ & H).
    apply bind_inr in H as (last & Hlast & H).
    apply getitem_last in Hlast as [_ Hlast].
    destruct last as [s|]; cbn [isinstance_str] in H.
    + rewrite getitem_beyond in H by lia. discriminate.
    + injection H as <- <-. auto.
  - intros name Hlen Hlast. unfold method_argument.
    destruct (Z.ltb_spec 3 (Z.of_nat (length varargin) + 3)); [|lia].
    destruct (Z.ltb_spec (Z.of_nat (length varargin) + 3) 7); [|lia].
    cbn [py_assert bind ret].
    assert (Hget : getitem varargin (-1) = inr (ArgStr name)).
    { unfold getitem. cbn [Z.ltb Z.compare].
      destruct (Z.ltb_spec (-1 + Z.of_nat (length varargin)) 0); [lia|].
      replace (Z.to_nat (-1 + Z.of_nat (length varargin)))
        with (length varargin - 1)%nat by lia.
      now rewrite Hlast. }
    rewrite Hget. cbn [bind isinstance_str].
    rewrite getitem_beyond by lia. reflexivity.
Qed.

Lemma method_argument_linear_witness :
  method_argument [ArgOther; ArgOther; ArgStr "nearest"]
  = inl (IndexError "tuple index out of range").
Proof.
  apply (proj2 (method_argument_linear
                  [ArgOther; ArgOther; ArgStr "nearest"]) "nearest"%string).
  - simpl. lia.
  - reflexivity.
Defined.
